(** * Reference tracking and search indexing: a shallow embedding

    This development embeds [src/models/lib/trackRefs.js] (the reference
    registry, the delta engine and the association builders) and the search
    index adapter ([updateInTxn], [createIndexEntry], [indexForSearch]) and
    proves properties of them.

    Conventions.
    - JavaScript values that a tracked property can hold are [value]s: a
      scalar, or an array of scalars.
    - JavaScript objects used as maps ([newState], [AddActions], ...) are
      [gmap string _]; a missing key reads as [undefined].
    - Objects that are shared and mutated (models, item classes) live in a
      heap indexed by references, so that aliasing between the two models
      handed to [connect] is visible.
    - Asynchronous code is modelled by the tasks it starts: every task is the
      list of effects it performs in order, and [Promise.all] over tasks
      admits every interleaving of them. *)

From Stdlib Require Import ZArith Ascii String.
From stdpp Require Import gmap strings list fin_maps pretty.

Local Open Scope string_scope.
Local Open Scope list_scope.

(** ** JavaScript values *)

Inductive scalar :=
  | JUndefined
  | JNull
  | JBool (b : bool)
  | JNum (n : Z)
  | JStr (s : string).

Inductive value :=
  | Scalar (x : scalar)
  | Array (xs : list scalar).

#[global] Instance scalar_eq_dec : EqDecision scalar.
Proof. solve_decision. Defined.

#[global] Instance value_eq_dec : EqDecision value.
Proof. solve_decision. Defined.

(** Truthiness of a scalar, as the conditional operator tests it. *)
Definition truthy (x : scalar) : bool :=
  match x with
  | JUndefined | JNull => false
  | JBool b => b
  | JNum n => negb (n =? 0)%Z
  | JStr s => negb (String.eqb s "")
  end.

(** A state object; [getProp s e] is [s[e]]. *)
Definition getProp (s : gmap string value) (e : string) : value :=
  default (Scalar JUndefined) (s !! e).

(** Modelled from the spec: the constant [None] of [@/utils/none], which is
    not part of the sources; the spec calls it the empty/absent state. *)
Definition None_state : gmap string value := ∅.

(** ** Normalisation and differences (trackRefs.js, lines 10-12 and 25-28) *)

Definition toArray (e : value) : list scalar :=
  match e with
  | Array xs => xs
  | Scalar x => if truthy x then [x] else []
  end.

(** Modelled from the spec: the helper [notIn] of [@/utils/notIn], which is
    not part of the sources; [notIn arr] is the predicate that holds of the
    elements that do not occur in [arr] (set difference over ids). *)
Definition notIn (arr : list scalar) : scalar → Prop := λ e, e ∉ arr.

#[global] Instance notIn_dec arr e : Decision (notIn arr e).
Proof. unfold notIn. apply _. Defined.

(** ** Actions (lines 69-137) *)

Inductive Action :=
  | AppendIDAction (prop : string)
  | SetIDAction (prop : string)
  | RemoveIDAction (prop : string)
  | UnsetIDAction (prop : string)
  | DeleteItemAction.

#[global] Instance Action_eq_dec : EqDecision Action.
Proof. solve_decision. Defined.

Inductive error := InvalidParameters | TypeError.

#[global] Instance error_eq_dec : EqDecision error.
Proof. solve_decision. Defined.

(** References to shared objects (models and item classes). *)
Definition ref := string.

(** [refModel.ref(id)] and [refModel.item(id)] both designate the record
    [id] of [refModel]. *)
Record refKey := RefKey { keyModel : ref; keyId : scalar }.

#[global] Instance refKey_eq_dec : EqDecision refKey.
Proof. solve_decision. Defined.

(** The target handed to an action: the pending instance found in the
    in-memory item store, or a fresh handle [refModel.item(id)]. *)
Inductive refItem :=
  | FromStore (k : refKey)
  | Handle (k : refKey).

#[global] Instance refItem_eq_dec : EqDecision refItem.
Proof. solve_decision. Defined.

Definition targetKey (t : refItem) : refKey :=
  match t with FromStore k | Handle k => k end.




(** ** The reference registry *)

Record RefProps := MkRefProps {
  props : list string;
  AddActions : gmap string (list Action);
  RemoveActions : gmap string (list Action) }.

(** What [Meta[prop]] reads.  [declared] tells whether the model has a
    descriptor for the property ([Meta[prop]] is [undefined] otherwise), and
    [has_arrayType] whether the descriptor has an [arrayType] object; for a
    descriptor that is there, [type], [refModel] and [arrayType.refModel] are
    its fields.  The delta engine reads the descriptors of the tracked
    properties as the host interface gives them, with their fields;
    [connect] and [belongsToMany], which read descriptors when a relation is
    declared, find out whether they are there. *)
Record PropMeta := MkPropMeta {
  declared : bool;
  type : string;
  refModel : ref;
  has_arrayType : bool;
  arrayType_refModel : ref }.

(** ** The delta engine (lines 19-68) *)

(** What the engine reads from an item. *)
Record Item := MkItem {
  item_refProps : option RefProps;      (* item[refProps] *)
  item_id : string;                     (* item.id() *)
  item_Meta : string → PropMeta;        (* item.model().Meta *)
  item_read : gmap string value;        (* await item.read(txn) *)
  item_didUpdate : string → bool }.     (* item.didUpdate(e) *)

(** An entry of the in-memory item store; [getItemFromStore] returns the
    pending instance kept under a key, or [null]. *)
Record StoreItem := MkStoreItem { isLocalOnly : bool }.

Inductive phase := Removed | Added.

#[global] Instance phase_eq_dec : EqDecision phase.
Proof. solve_decision. Defined.

(** The effects of the engine.  [EvRun ph e id a t] is the call
    [a.run(txn, item, t)] made for the id [id] of property [e], from the
    removed ids ([Removed]) or from the added ids ([Added]). *)
Inductive event :=
  | EvSave (k : refKey)
  | EvRun (ph : phase) (e : string) (id : scalar) (a : Action) (t : refItem)
  | EvThrow (err : error).

#[global] Instance event_eq_dec : EqDecision event.
Proof. solve_decision. Defined.


(** The work started for one tracked property: one task per removed id, all
    awaited, then one task per added id. *)
Record propTask := MkPropTask {
  removedTasks : list (list event);
  addedTasks : list (list event) }.

Definition resolveRefModel (meta : PropMeta) : ref :=
  if String.eqb (type meta) "array" then arrayType_refModel meta
  else refModel meta.

(** The same lines, 31-33 and 44-45, with what they dereference: [meta.type]
    is a [TypeError] when the property has no descriptor, and
    [meta.arrayType.refModel] when an array-typed descriptor has no
    [arrayType].  [None] is that [TypeError], raised while a transaction
    runs; on [Some] the model is the one [resolveRefModel] gives. *)
Definition dereference (meta : PropMeta) : option ref :=
  if negb (declared meta) then None
  else if String.eqb (type meta) "array"
       then (if has_arrayType meta then Some (arrayType_refModel meta) else None)
       else Some (refModel meta).

(** [Promise.all(actions?.map?.(...))]: every action of the list is run, in
    the order of the list; when the property has no list, [Promise.all]
    receives [undefined] and rejects. *)
Definition runAll (ph : phase) (e : string) (id : scalar)
    (actions : option (list Action)) (t : refItem) : list event :=
  match actions with
  | Some l => map (λ a, EvRun ph e id a t) l
  | None => [EvThrow TypeError]
  end.

Definition added (newValue oldValue : list scalar) : list scalar :=
  filter (notIn oldValue) newValue.

Definition removed (newValue oldValue : list scalar) : list scalar :=
  filter (notIn newValue) oldValue.

Definition removedTask (item : Item) (rp : RefProps) (e : string)
    (id : scalar) : list event :=
  let meta := item_Meta item e in
  let refModel := resolveRefModel meta in
  let refItem := Handle (RefKey refModel id) in
  runAll Removed e id (RemoveActions rp !! e) refItem.

Definition addedTask (getItemFromStore : refKey → option StoreItem)
    (item : Item) (rp : RefProps) (e : string) (id : scalar) : list event :=
  let meta := item_Meta item e in
  let refModel := resolveRefModel meta in
  let created := getItemFromStore (RefKey refModel id) in
  let save :=
    match created with
    | Some c => if isLocalOnly c then [EvSave (RefKey refModel id)] else []
    | None => []
    end in
  let refItem :=
    match created with
    | Some _ => FromStore (RefKey refModel id)
    | None => Handle (RefKey refModel id)
    end in
  save ++ runAll Added e id (AddActions rp !! e) refItem.

Definition propWork (getItemFromStore : refKey → option StoreItem)
    (item : Item) (rp : RefProps) (newState : gmap string value)
    (isUpdate : bool) (e : string) : propTask :=
  if isUpdate && negb (item_didUpdate item e) then MkPropTask [] []
  else
    let newValue := toArray (getProp newState e) in
    let oldValue := toArray (getProp (item_read item) e) in
    MkPropTask
      (map (removedTask item rp e) (removed newValue oldValue))
      (map (addedTask getItemFromStore item rp e) (added newValue oldValue)).

Definition onRefsUpdateItem (getItemFromStore : refKey → option StoreItem)
    (item : Item) (newState : gmap string value) (isUpdate : bool)
    : list propTask :=
  match item_refProps item with
  | None => []
  | Some rp => map (propWork getItemFromStore item rp newState isUpdate) (props rp)
  end.

Definition onRefsAddItem (getItemFromStore : refKey → option StoreItem)
    (item : Item) (newState : gmap string value) : list propTask :=
  onRefsUpdateItem getItemFromStore item newState false.


(** ** Schedules of the engine's tasks

    [Promise.all] starts every task and awaits them all: the effects of one
    task keep their order, the effects of different tasks interleave. *)

Inductive interleave {A : Type} : list (list A) → list A → Prop :=
  | interleave_done (ts : list (list A)) :
      Forall (λ t, t = []) ts → interleave ts []
  | interleave_step (ts1 ts2 : list (list A)) (x : A) (t tr : list A) :
      interleave (ts1 ++ t :: ts2) tr →
      interleave (ts1 ++ (x :: t) :: ts2) (x :: tr).

(** One property: the removed ids are awaited before the added ids start. *)
Definition propSchedule (pt : propTask) (tr : list event) : Prop :=
  ∃ tr1 tr2, interleave (removedTasks pt) tr1 ∧
             interleave (addedTasks pt) tr2 ∧ tr = tr1 ++ tr2.

(** The whole call: the properties are themselves run under [Promise.all]. *)
Definition schedule (pts : list propTask) (tr : list event) : Prop :=
  ∃ trs, Forall2 propSchedule pts trs ∧ interleave trs tr.

(** The schedule in which every task runs to completion when it is started. *)
Definition programOrder (pts : list propTask) : list event :=
  concat (map (λ pt, concat (removedTasks pt) ++ concat (addedTasks pt)) pts).

(** All the effects of a call, whatever the schedule. *)
Definition effects (pts : list propTask) : list event := programOrder pts.

(** ** The heap of models and item classes *)

(** An object of the heap.  A model has [Meta] and [_Item], the reference of
    its item class; an item class has a prototype ([has_prototype]), the
    registry that [ItemClass.prototype[refProps]] reads and the flags set by
    [markTriggersUpdateTxn].  A model object has no prototype.
    [prototype_refProps] is what line 146 reads for the class and what line
    165 stores; classes that inherit the registry of another class are not
    followed. *)
Record obj := MkObj {
  Meta : string → PropMeta;
  _Item : ref;
  has_prototype : bool;
  prototype_refProps : option RefProps;
  triggersUpdateTxn : list (string * bool) }.

Definition heap := ref → obj.

Definition update (r : ref) (o : obj) (h : heap) : heap :=
  λ r', if decide (r = r') then o else h r'.

Inductive outcome :=
  | Ok (h : heap)
  | Throw (err : error) (h : heap).

(** Modelled from the spec: [ItemClass.markTriggersUpdateTxn], a method of the
    host's item class that is not part of the sources; the spec describes it
    as a boolean side-channel per property per class. *)
Definition markTriggersUpdateTxn (ps : list string) (b : bool) (o : obj) : obj :=
  MkObj (Meta o) (_Item o) (has_prototype o) (prototype_refProps o)
        (triggersUpdateTxn o ++ map (λ p, (p, b)) ps).

Definition set_prototype_refProps (rp : RefProps) (o : obj) : obj :=
  MkObj (Meta o) (_Item o) (has_prototype o) (Some rp) (triggersUpdateTxn o).

(** ** Registry composition: [trackRefs] (lines 145-166)

    [trackRefs] is given the reference of an item class, as its JSDoc types
    it. *)

(** [prev ? prev.X[e].concat(news) : fresh]; [None] is the [TypeError] of
    calling [concat] on [undefined]. *)
Definition concatActions (prev : option (gmap string (list Action)))
    (fresh news : list Action) (e : string) : option (string * list Action) :=
  match prev with
  | None => Some (e, fresh)
  | Some m => (λ l, (e, l ++ news)) <$> m !! e
  end.

(** [Object.assign({}, base, ...entries)]. *)
Definition assign (base : gmap string (list Action))
    (entries : list (string * list Action)) : gmap string (list Action) :=
  foldl (λ m kv, <[kv.1 := kv.2]> m) base entries.

Definition trackRefs (h : heap) (ItemClass : ref) (ps : list string)
    (addActions removeActions : list Action) : outcome :=
  let prev := prototype_refProps (h ItemClass) in
  match mapM (concatActions (AddActions <$> prev) addActions addActions) ps with
  | None => Throw TypeError h
  | Some adds =>
    match mapM (concatActions (RemoveActions <$> prev) addActions removeActions) ps with
    | None => Throw TypeError h
    | Some rems =>
      let newRefProps :=
        MkRefProps
          (match prev with Some p => props p ++ ps | None => ps end)
          (assign (default ∅ (AddActions <$> prev)) adds)
          (assign (default ∅ (RemoveActions <$> prev)) rems) in
      Ok (update ItemClass
            (set_prototype_refProps newRefProps
               (markTriggersUpdateTxn ps true (h ItemClass))) h)
    end
  end.

(** ** Association builders (lines 186-252) *)

(** [!!prop2].  A property name that is not given ([undefined], [null]) is
    represented by the empty string, which is falsy as well; [connect] reads
    such a [prop2] only through this test. *)
Definition isGiven (prop : string) : bool := negb (String.eqb prop "").

(** [[a].filter(Boolean)] on a list of actions or [null]. *)
Definition filterBoolean (l : list (option Action)) : list Action :=
  omap id l.

Definition connectAddActions (isArray2 isTwoWay : bool) (prop2 : string)
    : list Action :=
  filterBoolean
    [ if isArray2 then Some (AppendIDAction prop2)
      else if isTwoWay then Some (SetIDAction prop2)
      else None ].

Definition connectRemoveActions (deleteOnRemove isTwoWay : bool) (prop2 : string)
    : list Action :=
  filterBoolean
    [ if deleteOnRemove then Some DeleteItemAction
      else if isTwoWay then Some (UnsetIDAction prop2)
      else None ].

Definition isArrayProp (h : heap) (model : ref) (prop : string) : bool :=
  String.eqb (type (Meta (h model) prop)) "array".

Definition isArray2 (h : heap) (model2 : ref) (prop2 : string) : bool :=
  isGiven prop2 && isArrayProp h model2 prop2.

(** [model.Meta[prop].arrayType.refModel = target] or
    [model.Meta[prop].refModel = target]. *)
Definition setRefModel (isArray : bool) (prop : string) (target : ref)
    (o : obj) : obj :=
  let meta := Meta o prop in
  let meta' :=
    if isArray
    then MkPropMeta (declared meta) (type meta) (refModel meta)
                    (has_arrayType meta) target
    else MkPropMeta (declared meta) (type meta) target
                    (has_arrayType meta) (arrayType_refModel meta) in
  MkObj (λ p, if decide (prop = p) then meta' else Meta o p)
        (_Item o) (has_prototype o) (prototype_refProps o) (triggersUpdateTxn o).

(** The body of [connect] up to the recursive call (lines 194-219).  Line 195
    reads [model1.Meta[prop1].type] and line 196, for a given [prop2],
    [model2.Meta[prop2].type]: a property without descriptor makes them a
    [TypeError], before the guard of line 197.  Line 218 writes
    [model1.Meta[prop1].arrayType.refModel] and raises a [TypeError], after
    the registration, when an array-typed descriptor has no [arrayType]. *)
Definition connectOnce (h : heap) (model1 : ref) (prop1 : string)
    (model2 : ref) (prop2 : string) (deleteOnRemove : bool) : outcome :=
  let isTwoWay := isGiven prop2 in
  if negb (declared (Meta (h model1) prop1)) then Throw TypeError h
  else
    let isArray1 := isArrayProp h model1 prop1 in
    if isTwoWay && negb (declared (Meta (h model2) prop2)) then Throw TypeError h
    else
      let isArray2 := isArray2 h model2 prop2 in
      if isArray2 && deleteOnRemove then Throw InvalidParameters h
      else
        match trackRefs h (_Item (h model1)) [prop1]
                (connectAddActions isArray2 isTwoWay prop2)
                (connectRemoveActions deleteOnRemove isTwoWay prop2) with
        | Throw err h' => Throw err h'
        | Ok h1 =>
            if isArray1 && negb (has_arrayType (Meta (h1 model1) prop1))
            then Throw TypeError h1
            else Ok (update model1
                       (setRefModel isArray1 prop1 model2 (h1 model1)) h1)
        end.

(** [connect]: the recursive call passes [noRecurse = true], so it runs the
    body once more, with the roles swapped, and stops. *)
Definition connect (h : heap) (model1 : ref) (prop1 : string)
    (model2 : ref) (prop2 : string) (deleteOnRemove noRecurse : bool) : outcome :=
  match connectOnce h model1 prop1 model2 prop2 deleteOnRemove with
  | Throw err h' => Throw err h'
  | Ok h2 =>
    if negb noRecurse && isGiven prop2
    then connectOnce h2 model2 prop2 model1 prop1 false
    else Ok h2
  end.

(** [belongsTo] is declared with an empty body. *)
Definition belongsTo (h : heap) (model1 : ref) (prop1 : string)
    (model2 : ref) (prop2 : string) (deleteOnRemove : bool) : outcome := Ok h.

(** [belongsToMany] hands [model1] itself to [trackRefs], where [connect]
    hands [model1._Item]: line 146 reads [model1.prototype[refProps]], which
    raises a [TypeError] when [model1] is a model object, without prototype.
    Line 251 writes [model2.Meta[prop2].refModel] and raises a [TypeError],
    after the registration, when [prop2] has no descriptor. *)
Definition belongsToMany (h : heap) (model1 : ref) (prop1 : string)
    (model2 : ref) (prop2 : string) (deleteOnRemove : bool) : outcome :=
  if negb (has_prototype (h model1)) then Throw TypeError h
  else
    match trackRefs h model1 [prop1] [SetIDAction prop2]
            [if deleteOnRemove then DeleteItemAction else RemoveIDAction prop2] with
    | Throw err h' => Throw err h'
    | Ok h1 =>
        if negb (declared (Meta (h1 model2) prop2)) then Throw TypeError h1
        else Ok (update model2 (setRefModel false prop2 model1 (h1 model2)) h1)
    end.

(** ** Search index adapter (updateInTxn, createIndexEntry, indexForSearch) *)

Record IndexEntry := MkIndexEntry { tokens : list string }.

(** The registry stored under [searchIndexProps]: the indexed properties and
    the indexer, called as [indexer(index, state)]. *)
Record SearchIndexProps := MkSearchIndexProps {
  sprops : list string;
  indexer : string → gmap string value → IndexEntry }.

(** What the adapter reads from an item. *)
Record SearchItem := MkSearchItem {
  sitem_searchIndexProps : option SearchIndexProps;  (* item[searchIndexProps] *)
  sitem_uniqueName : string;                         (* item.uniqueName() *)
  sitem_read : gmap string value;                    (* await item.read(txn) *)
  sitem_didUpdate : string → bool }.                 (* item.didUpdate(e) *)

(** [String(v)] for the values of this model. *)
Definition scalarString (x : scalar) : string :=
  match x with
  | JUndefined => "undefined"
  | JNull => "null"
  | JBool true => "true"
  | JBool false => "false"
  | JNum n => pretty n
  | JStr s => s
  end.

Definition elementString (x : scalar) : string :=
  match x with
  | JUndefined | JNull => ""
  | _ => scalarString x
  end.

Definition String_ (v : value) : string :=
  match v with
  | Scalar x => scalarString x
  | Array xs => String.concat "," (map elementString xs)
  end.

(** [v ?? ""]. *)
Definition orEmpty (v : value) : value :=
  match v with
  | Scalar JUndefined | Scalar JNull => Scalar (JStr "")
  | _ => v
  end.

(** [s.replace(/\//g, "^")]. *)
Fixpoint replaceSlashes (s : string) : string :=
  match s with
  | EmptyString => EmptyString
  | String c s' =>
      String (if Ascii.eqb c "/"%char then "^"%char else c) (replaceSlashes s')
  end.

Definition _id (item : SearchItem) : string :=
  replaceSlashes (sitem_uniqueName item).

(** Modelled from the spec: the helper [hasProp] of [@/utils/hasProp], which
    is not part of the sources; a property is absent from the candidate when
    the object has no such key. *)
Definition hasProp (x : gmap string value) (e : string) : bool :=
  bool_decide (is_Some (x !! e)).

(** Modelled from the spec: the filter callback [uniq] of [@/utils/uniq],
    which is not part of the sources; [l.filter(uniq)] deduplicates [l],
    keeping the first occurrence of every token. *)
Fixpoint uniqFrom (seen l : list string) : list string :=
  match l with
  | [] => []
  | x :: l' =>
      if decide (x ∈ seen) then uniqFrom seen l' else x :: uniqFrom (x :: seen) l'
  end.

Definition filter_uniq (l : list string) : list string := uniqFrom [] l.

(** The state [x] handed to the indexer (lines 16-24). *)
Definition fillFromPersisted (newState prevState : gmap string value)
    (ps : list string) : gmap string value :=
  foldl (λ x e, if hasProp x e then x else <[e := getProp prevState e]> x)
        newState ps.

Section SearchIndex.

(** The query tokenizer [parseQuery] of [@/utils/createQuery] belongs to the
    host; the adapter only flattens what it returns. *)
Variable parseQuery : string → list (list string).

Definition indexText (ps : list string) (state : gmap string value) : string :=
  String.concat " " (map (λ e, String_ (orEmpty (getProp state e))) ps).

Definition createIndexEntry (ps : list string) (item : string)
    (state : gmap string value) (prev : option IndexEntry) : IndexEntry :=
  MkIndexEntry
    (filter_uniq
       (concat (parseQuery (indexText ps state))
          ++ match prev with Some p => tokens p | None => [] end)).

(** [indexForSearch]: the registry stored on the class, and the flags it
    hands to [markTriggersUpdateTxn(props, false)]. *)
Definition indexForSearch (prev : option SearchIndexProps) (ps : list string)
    (createIndex : list string → string → gmap string value →
                   option IndexEntry → IndexEntry)
    : SearchIndexProps * list (string * bool) :=
  (MkSearchIndexProps
     (match prev with Some p => sprops p ++ ps | None => ps end)
     (λ item state,
        createIndex ps item state ((λ p, indexer p item state) <$> prev)),
   map (λ p, (p, false)) ps).

End SearchIndex.

(** [updateInTxn]: [Some (id, entry)] is the upsert
    [SearchIndex.getOrCreate(id, ...)] that sets the index to [entry];
    [None] is the call that does nothing. *)
Definition updateInTxn (item : SearchItem) (newState : gmap string value)
    : option (string * IndexEntry) :=
  match sitem_searchIndexProps item with
  | None => None
  | Some sp =>
      if existsb (sitem_didUpdate item) (sprops sp) then
        let x := fillFromPersisted newState (sitem_read item) (sprops sp) in
        Some (_id item, indexer sp (_id item) x)
      else None
  end.

(** [deleteInTxn]: [Some id] is the deletion of the index entry [id]. *)
Definition deleteInTxn (item : SearchItem) : option string :=
  match sitem_searchIndexProps item with
  | None => None
  | Some _ => Some (_id item)
  end.

Definition onSearchUpdateItem := updateInTxn.
Definition onSearchAddItem := updateInTxn.
Definition onSearchDeleteItem := deleteInTxn.

(** ** Specification-side definitions *)

(** The normalisation as the specification words it: absent or null is the
    empty sequence, a scalar is a single-element sequence, an array is
    itself. *)
Definition normalizedIds (v : value) : list scalar :=
  match v with
  | Scalar JUndefined | Scalar JNull => []
  | Scalar x => [x]
  | Array xs => xs
  end.

Definition targetOf (item : Item) (e : string) (id : scalar) : refKey :=
  RefKey (resolveRefModel (item_Meta item e)) id.

Definition processed (item : Item) (isUpdate : bool) (e : string) : bool :=
  negb (isUpdate && negb (item_didUpdate item e)).









(** ** Examples used in witnesses and counterexamples *)

Definition exMeta : PropMeta := MkPropMeta true "string" "B" false "".

(** The registry that [trackRefs] builds on a class without registry for
    [trackRefs(AItem, ["bId"], [new SetIDAction("aId")],
    [new UnsetIDAction("aId")])]. *)
Definition exRegistry : RefProps :=
  MkRefProps ["bId"] {["bId" := [SetIDAction "aId"]]} {["bId" := [SetIDAction "aId"]]}.

(** An item [a1] whose persisted [bId] is [b0], and the same item before it
    was ever stored. *)
Definition exItem : Item :=
  MkItem (Some exRegistry) "a1" (λ _, exMeta) {["bId" := Scalar (JStr "b0")]}
         (λ _, true).

Definition exItemFresh : Item :=
  MkItem (Some exRegistry) "a1" (λ _, exMeta) ∅ (λ _, false).


(** An item store in which [b1] of model [B] is pending and local-only. *)
Definition exStore : refKey → option StoreItem :=
  λ k, if decide (k = RefKey "B" (JStr "b1")) then Some (MkStoreItem true) else None.

(** [precededIn need tr]: whenever an effect [x] occurs in the trace [tr] and
    [x] needs [y], [y] occurs in [tr] before that occurrence of [x]. *)
Definition precededIn {A : Type} (need : A → A → Prop) (tr : list A) : Prop :=
  ∀ pre x post y, tr = pre ++ x :: post → need x y → y ∈ pre.

(** An add-action run against a pending local-only instance of the item store
    needs the save of that instance. *)
Definition needsSave (store : refKey → option StoreItem) (x y : event) : Prop :=
  ∃ e id a t c, x = EvRun Added e id a t ∧ store (targetKey t) = Some c ∧
                isLocalOnly c = true ∧ y = EvSave (targetKey t).

(** A registry in which the tracked properties are exactly the properties
    that have an add-action list and a remove-action list.  [trackRefs], the
    only code that can store a registry (the key [refProps] is private to the
    module), builds no other registry. *)
Definition registryOk (rp : RefProps) : Prop :=
  ∀ e, (e ∈ props rp ↔ is_Some (AddActions rp !! e)) ∧
       (e ∈ props rp ↔ is_Some (RemoveActions rp !! e)).

(** Two models [A] and [B] with item classes [AItem] and [BItem]: the models
    are objects without prototype, every other object is a class; no class
    has a registry, every property is declared and a scalar. *)
Definition exHeap : heap :=
  λ r, MkObj (λ _, MkPropMeta true "string" "" false "")
             (if decide (r = "A") then "AItem"
              else if decide (r = "B") then "BItem" else r)
             (if decide (r = "A") then false
              else if decide (r = "B") then false else true)
             None [].

(** The same models, where [aIds] and [bIds] are array-typed properties and
    [nope] is a property without descriptor. *)
Definition exHeapArray : heap :=
  λ r, MkObj (λ p, MkPropMeta (negb (String.eqb p "nope"))
                     (if String.eqb p "aIds" || String.eqb p "bIds"
                      then "array" else "string")
                     ""
                     (String.eqb p "aIds" || String.eqb p "bIds")
                     "")
             (if decide (r = "A") then "AItem"
              else if decide (r = "B") then "BItem" else r)
             (if decide (r = "A") then false
              else if decide (r = "B") then false else true)
             None [].

(** The heap after [trackRefs(AItem, ["bIds"], [], [])]. *)
Definition exHeapTracked : heap :=
  match trackRefs exHeap "AItem" ["bIds"] [] [] with
  | Ok h => h
  | Throw _ h => h
  end.

(** The heap in which the class [AItem] carries [exRegistry]. *)
Definition exHeapRegistered : heap :=
  match trackRefs exHeap "AItem" ["bId"] [SetIDAction "aId"] [UnsetIDAction "aId"] with
  | Ok h => h
  | Throw _ h => h
  end.

(** The registry of [AItem] in [exHeapTracked], and the heap after
    [belongsToMany(AItem, "bIds", B, "aId", false)] on [exHeapTracked]. *)
Definition exTracked : RefProps := MkRefProps ["bIds"] {["bIds" := []]} {["bIds" := []]}.

Definition exHeapBelongs : heap :=
  match belongsToMany exHeapTracked "AItem" "bIds" "B" "aId" false with
  | Ok h => h
  | Throw _ h => h
  end.

(** The value of a property in the state handed to the indexer, as the
    specification words it: the candidate value, or the persisted value when
    the candidate has none. *)
Definition mergedValue (newState prevState : gmap string value) (e : string) : value :=
  match newState !! e with
  | Some v => v
  | None => getProp prevState e
  end.

(** A tokenizer for the examples: one token per query. *)
Definition exParseQuery (s : string) : list (list string) := [[s]].

(** An item indexed on [title] and [body], persisted with the title
    [Foo Bar], whose [body] is being updated. *)
Definition exSearchProps : SearchIndexProps :=
  (indexForSearch None ["title"; "body"] (createIndexEntry exParseQuery)).1.

Definition exSearchItem : SearchItem :=
  MkSearchItem (Some exSearchProps) "items/a1"
    {["title" := Scalar (JStr "Foo Bar"); "body" := Scalar (JStr "old")]}
    (λ e, String.eqb e "body").

(** ** Definitions used by the further properties *)

(** The heap a call leaves behind, whether it returns or raises. *)
Definition outcomeHeap (o : outcome) : heap :=
  match o with Ok h | Throw _ h => h end.

(** Every registry of the heap is well formed. *)
Definition heapOk (h : heap) : Prop :=
  ∀ r rp, prototype_refProps (h r) = Some rp → registryOk rp.

(** The effects of the work started for one property. *)
Definition propEffects (store : refKey → option StoreItem) (item : Item)
    (rp : RefProps) (newState : gmap string value) (isUpdate : bool)
    (e : string) : list event :=
  concat (removedTasks (propWork store item rp newState isUpdate e))
  ++ concat (addedTasks (propWork store item rp newState isUpdate e)).

(** [occurs c s]: the character [c] occurs in [s]. *)
Fixpoint occurs (c : ascii) (s : string) : bool :=
  match s with
  | EmptyString => false
  | String c' s' => Ascii.eqb c c' || occurs c s'
  end.

(** The heap after [trackRefs(AItem, ["bId"], [SetID aId], [UnsetID aId])]
    followed by [trackRefs(AItem, ["bId"], [AppendID log], [RemoveID log])],
    and an item of that class that was never stored. *)
Definition exHeapTwice : heap :=
  outcomeHeap (trackRefs exHeapRegistered "AItem" ["bId"]
                 [AppendIDAction "log"] [RemoveIDAction "log"]).

Definition exItemTwice : Item :=
  MkItem (prototype_refProps (exHeapTwice "AItem")) "a1" (λ _, exMeta) ∅ (λ _, true).

(** The registry of a class after one [indexForSearch] call, with the default
    [createIndexEntry], for each property list of [decls], in order. *)
Definition declareAll (parseQuery : string → list (list string))
    (decls : list (list string)) : option SearchIndexProps :=
  foldl (λ prev ps, Some (indexForSearch prev ps (createIndexEntry parseQuery)).1)
        None decls.

(** An item indexed by two declarations, on [title] and then on [body]. *)
Definition exSearchItemTwo : SearchItem :=
  MkSearchItem (declareAll exParseQuery [["title"]; ["body"]]) "items/a1"
    {["title" := Scalar (JStr "Foo Bar"); "body" := Scalar (JStr "old")]}
    (λ e, String.eqb e "body").

(** The class [C] tracks the property [e]: its registry lists [e] and holds
    an add-action list and a remove-action list for it, which is what lines
    21, 36 and 52 read. *)
Definition tracks (h : heap) (C : ref) (e : string) : Prop :=
  ∃ rp, prototype_refProps (h C) = Some rp ∧ e ∈ props rp ∧
        is_Some (AddActions rp !! e) ∧ is_Some (RemoveActions rp !! e).
(** * Properties *)

(** ** Lists *)

Lemma elem_of_map {A B : Type} (f : A → B) (l : list A) (y : B) :
  y ∈ map f l ↔ ∃ x, y = f x ∧ x ∈ l.
Proof.
  rewrite list_elem_of_In, in_map_iff. split.
  - intros (x & <- & Hx). exists x. by rewrite list_elem_of_In.
  - intros (x & -> & Hx). exists x. by rewrite <- list_elem_of_In.
Qed.

Lemma elem_of_concat {A : Type} (ls : list (list A)) (x : A) :
  x ∈ concat ls ↔ ∃ l, x ∈ l ∧ l ∈ ls.
Proof.
  rewrite list_elem_of_In, in_concat. split.
  - intros (l & Hl & Hx). exists l. by rewrite !list_elem_of_In.
  - intros (l & Hx & Hl). exists l. by rewrite <- !list_elem_of_In.
Qed.

(** ** Differences *)

Lemma elem_of_added (newValue oldValue : list scalar) (id : scalar) :
  id ∈ added newValue oldValue ↔ id ∈ newValue ∧ id ∉ oldValue.
Proof. unfold added, notIn. rewrite list_elem_of_filter. tauto. Qed.

Lemma elem_of_removed (newValue oldValue : list scalar) (id : scalar) :
  id ∈ removed newValue oldValue ↔ id ∈ oldValue ∧ id ∉ newValue.
Proof. unfold removed, notIn. rewrite list_elem_of_filter. tauto. Qed.

Lemma added_nil_old (newValue : list scalar) : added newValue [] = newValue.
Proof.
  unfold added. induction newValue as [|x l IH]; [done|].
  rewrite filter_cons_True; [by rewrite IH|]. unfold notIn. apply not_elem_of_nil.
Qed.



Lemma removed_nil_old (newValue : list scalar) : removed newValue [] = [].
Proof. done. Qed.

(** ** The effects of the engine *)

Lemma elem_of_runAll ph e id acts t ev :
  ev ∈ runAll ph e id acts t ↔
    (∃ l a, acts = Some l ∧ a ∈ l ∧ ev = EvRun ph e id a t) ∨
    (acts = None ∧ ev = EvThrow TypeError).
Proof.
  unfold runAll. destruct acts as [l|].
  - rewrite elem_of_map. split.
    + intros (a & -> & Ha). left. by exists l, a.
    + intros [(l' & a & [= <-] & Ha & ->)|[? _]]; [by exists a | done].
  - rewrite list_elem_of_singleton. split.
    + intros ->. by right.
    + intros [(l & a & ? & _)|[_ ->]]; done.
Qed.

Lemma elem_of_removedTask item rp e id ev :
  ev ∈ removedTask item rp e id ↔
    (∃ l a, RemoveActions rp !! e = Some l ∧ a ∈ l ∧
            ev = EvRun Removed e id a (Handle (targetOf item e id))) ∨
    (RemoveActions rp !! e = None ∧ ev = EvThrow TypeError).
Proof. unfold removedTask. apply elem_of_runAll. Qed.

Lemma elem_of_addedTask store item rp e id ev :
  ev ∈ addedTask store item rp e id ↔
    (∃ c, store (targetOf item e id) = Some c ∧ isLocalOnly c = true ∧
          ev = EvSave (targetOf item e id)) ∨
    (∃ l a, AddActions rp !! e = Some l ∧ a ∈ l ∧
            ev = EvRun Added e id a
                   (match store (targetOf item e id) with
                    | Some _ => FromStore (targetOf item e id)
                    | None => Handle (targetOf item e id)
                    end)) ∨
    (AddActions rp !! e = None ∧ ev = EvThrow TypeError).
Proof.
  unfold addedTask, targetOf. rewrite elem_of_app, elem_of_runAll.
  destruct (store _) as [c|].
  - destruct c as [[]]; simpl.
    + rewrite list_elem_of_singleton. split.
      * intros [->|H]; [left; by eexists | by right].
      * intros [(c & _ & _ & ->)|H]; [by left | by right].
    + rewrite elem_of_nil. split.
      * intros [[]|H]. by right.
      * intros [(c & [= <-] & ? & _)|H]; [done | by right].
  - rewrite elem_of_nil. split.
    + intros [[]|H]. by right.
    + intros [(c & ? & _)|H]; [done | by right].
Qed.

Lemma elem_of_effects_propWork store item rp newState isUpdate e ev :
  ev ∈ concat (removedTasks (propWork store item rp newState isUpdate e))
       ++ concat (addedTasks (propWork store item rp newState isUpdate e)) ↔
    processed item isUpdate e = true ∧
    ((∃ id, id ∈ removed (toArray (getProp newState e))
                         (toArray (getProp (item_read item) e)) ∧
            ev ∈ removedTask item rp e id) ∨
     (∃ id, id ∈ added (toArray (getProp newState e))
                       (toArray (getProp (item_read item) e)) ∧
            ev ∈ addedTask store item rp e id)).
Proof.
  unfold propWork, processed.
  destruct (isUpdate && negb (item_didUpdate item e)); simpl.
  - rewrite elem_of_nil. split; [done | by intros [? _]].
  - rewrite elem_of_app, !elem_of_concat. split.
    + intros [(t & Hev & Ht)|(t & Hev & Ht)]; apply elem_of_map in Ht as (id & -> & Hid);
        (split; [done|]); [left | right]; by exists id.
    + intros [_ [(id & Hid & Hev)|(id & Hid & Hev)]]; [left | right];
        eexists; (split; [exact Hev|]); apply elem_of_map; by exists id.
Qed.

Lemma elem_of_effects store item newState isUpdate ev :
  ev ∈ effects (onRefsUpdateItem store item newState isUpdate) ↔
    ∃ rp e, item_refProps item = Some rp ∧ e ∈ props rp ∧
      processed item isUpdate e = true ∧
      ((∃ id, id ∈ removed (toArray (getProp newState e))
                           (toArray (getProp (item_read item) e)) ∧
              ev ∈ removedTask item rp e id) ∨
       (∃ id, id ∈ added (toArray (getProp newState e))
                         (toArray (getProp (item_read item) e)) ∧
              ev ∈ addedTask store item rp e id)).
Proof.
  unfold effects, programOrder, onRefsUpdateItem.
  destruct (item_refProps item) as [rp|]; simpl.
  - rewrite elem_of_concat. split.
    + intros (l & Hev & Hl). apply elem_of_map in Hl as (pt & -> & Hpt).
      apply elem_of_map in Hpt as (e & -> & He).
      apply elem_of_effects_propWork in Hev as [Hp Hev]. by exists rp, e.
    + intros (rp' & e & [= <-] & He & Hp & Hev).
      eexists. split; [apply elem_of_effects_propWork; by split|].
      apply elem_of_map. eexists. split; [done|]. apply elem_of_map. by exists e.
  - rewrite elem_of_nil. split; [done | by intros (? & ? & ? & _)].
Qed.

(** ** Added and removed ids of a tracked property *)

Lemma toArray_normalizedIds (v : value) :
  (∀ x, v = Scalar x → truthy x = true ∨ x = JUndefined ∨ x = JNull) →
  toArray v = normalizedIds v.
Proof.
  destruct v as [x|xs]; [|done]. intros H.
  destruct (H x eq_refl) as [Ht|[->| ->]]; [|done..].
  simpl. rewrite Ht. by destruct x.
Qed.

Lemma run_fires_added store item rp newState isUpdate e id l a :
  item_refProps item = Some rp → e ∈ props rp →
  processed item isUpdate e = true →
  id ∈ added (toArray (getProp newState e)) (toArray (getProp (item_read item) e)) →
  AddActions rp !! e = Some l → a ∈ l →
  ∃ t, targetKey t = targetOf item e id ∧
       EvRun Added e id a t ∈ effects (onRefsUpdateItem store item newState isUpdate).
Proof.
  intros Hrp He Hp Hid Hl Ha. eexists. split; [|apply elem_of_effects].
  2:{ exists rp, e. do 3 (split; [done|]). right. exists id. split; [done|].
      apply elem_of_addedTask. right. left. by exists l, a. }
  by destruct (store _).
Qed.

Lemma run_fires_removed store item rp newState isUpdate e id l a :
  item_refProps item = Some rp → e ∈ props rp →
  processed item isUpdate e = true →
  id ∈ removed (toArray (getProp newState e)) (toArray (getProp (item_read item) e)) →
  RemoveActions rp !! e = Some l → a ∈ l →
  EvRun Removed e id a (Handle (targetOf item e id))
    ∈ effects (onRefsUpdateItem store item newState isUpdate).
Proof.
  intros Hrp He Hp Hid Hl Ha. apply elem_of_effects.
  exists rp, e. do 3 (split; [done|]). left. exists id. split; [done|].
  apply elem_of_removedTask. left. by exists l, a.
Qed.

(** Where a run of an action comes from: its property is tracked and was
    processed, its id is an added id (add-actions) or a removed id
    (remove-actions), and the action is registered for the property. *)
Lemma run_inv store item newState isUpdate ph e id a t :
  EvRun ph e id a t ∈ effects (onRefsUpdateItem store item newState isUpdate) →
  ∃ rp, item_refProps item = Some rp ∧ e ∈ props rp ∧
        processed item isUpdate e = true ∧ targetKey t = targetOf item e id ∧
        match ph with
        | Added =>
            id ∈ added (toArray (getProp newState e))
                       (toArray (getProp (item_read item) e)) ∧
            ∃ l, AddActions rp !! e = Some l ∧ a ∈ l
        | Removed =>
            id ∈ removed (toArray (getProp newState e))
                         (toArray (getProp (item_read item) e)) ∧
            ∃ l, RemoveActions rp !! e = Some l ∧ a ∈ l
        end.
Proof.
  intros H. apply elem_of_effects in H as (rp & e' & Hrp & He & Hp & H).
  exists rp. destruct H as [(id' & Hid & H)|(id' & Hid & H)].
  - apply elem_of_removedTask in H as [(l & a' & Hl & Ha & [= -> -> -> -> ->])|[_ ?]];
      [|done]. do 4 (split; [done|]). split; [done|]. by exists l.
  - apply elem_of_addedTask in H
      as [(c & _ & _ & ?)|[(l & a' & Hl & Ha & [= -> -> -> -> ->])|[_ ?]]]; [done| |done].
    do 3 (split; [done|]). split; [by destruct (store _)|]. split; [done|]. by exists l.
Qed.

(** C1, as amended.  [toArray] maps an array to itself, a truthy scalar to
    the single-element sequence and every falsy scalar (absent, null, but also
    the empty string, zero and false) to the empty sequence; it agrees with
    the normalisation of the specification on every other value.  On the ids
    so obtained, [onRefsUpdateItem] computes [added] as the ids of the new
    value that are not ids of the old one and [removed] as the ids of the old
    value that are not ids of the new one; add-actions run only for added
    ids, remove-actions only for removed ids, and an id present in both
    triggers neither. *)
Theorem onRefsUpdateItem_set_differences
    (store : refKey → option StoreItem) (item : Item)
    (newState : gmap string value) (isUpdate : bool) (e : string) :
  let newIds := toArray (getProp newState e) in
  let oldIds := toArray (getProp (item_read item) e) in
  let fired := effects (onRefsUpdateItem store item newState isUpdate) in
  ((∀ xs, toArray (Array xs) = xs) ∧
   (∀ x, truthy x = true → toArray (Scalar x) = [x]) ∧
   (∀ x, truthy x = false → toArray (Scalar x) = []) ∧
   (∀ v, (∀ x, v = Scalar x → truthy x = true ∨ x = JUndefined ∨ x = JNull) →
         toArray v = normalizedIds v)) ∧
  (∀ id, id ∈ added newIds oldIds ↔ id ∈ newIds ∧ id ∉ oldIds) ∧
  (∀ id, id ∈ removed newIds oldIds ↔ id ∈ oldIds ∧ id ∉ newIds) ∧
  (∀ id a t, EvRun Added e id a t ∈ fired → id ∈ newIds ∧ id ∉ oldIds) ∧
  (∀ id a t, EvRun Removed e id a t ∈ fired → id ∈ oldIds ∧ id ∉ newIds) ∧
  (∀ id, id ∈ newIds → id ∈ oldIds → ∀ ph a t, EvRun ph e id a t ∉ fired) ∧
  (∀ rp, item_refProps item = Some rp → e ∈ props rp →
         processed item isUpdate e = true →
     (∀ id l a, id ∈ newIds → id ∉ oldIds → AddActions rp !! e = Some l → a ∈ l →
                ∃ t, EvRun Added e id a t ∈ fired) ∧
     (∀ id l a, id ∈ oldIds → id ∉ newIds → RemoveActions rp !! e = Some l → a ∈ l →
                ∃ t, EvRun Removed e id a t ∈ fired)).
Proof.
  intros newIds oldIds fired. split; [|split; [|split; [|split; [|split; [|split]]]]].
  - repeat split.
    + intros x Hx. simpl. by rewrite Hx.
    + intros x Hx. simpl. by rewrite Hx.
    + apply toArray_normalizedIds.
  - apply elem_of_added.
  - apply elem_of_removed.
  - intros id a t H. apply run_inv in H as (rp & _ & _ & _ & _ & H & _).
    by apply elem_of_added.
  - intros id a t H. apply run_inv in H as (rp & _ & _ & _ & _ & H & _).
    by apply elem_of_removed.
  - intros id Hnew Hold ph a t H.
    apply run_inv in H as (rp & _ & _ & _ & _ & H).
    destruct ph, H as [H _].
    + apply elem_of_removed in H as [_ H]. done.
    + apply elem_of_added in H as [_ H]. done.
  - intros rp Hrp He Hp. split.
    + intros id l a Hn Ho Hl Ha.
      destruct (run_fires_added store item rp newState isUpdate e id l a)
        as (t & _ & Ht); try done. { by apply elem_of_added. } by exists t.
    + intros id l a Ho Hn Hl Ha. eexists.
      eapply run_fires_removed; try done. by apply elem_of_removed.
Qed.

(** C1 as stated fails: the empty string is a scalar, yet [toArray] maps it
    to the empty sequence, so it is never an added id. *)
Lemma added_falsy_scalar_counterexample :
  ¬ (∀ newValue oldValue id,
       id ∈ added (toArray newValue) (toArray oldValue) ↔
       id ∈ normalizedIds newValue ∧ id ∉ normalizedIds oldValue).
Proof.
  intros H.
  destruct (H (Scalar (JStr "")) (Scalar JNull) (JStr "")) as [_ H'].
  assert (JStr "" ∈ added (toArray (Scalar (JStr ""))) (toArray (Scalar JNull))) as Hin.
  { apply H'. split; [apply list_elem_of_singleton; done | apply not_elem_of_nil]. }
  by apply elem_of_nil in Hin.
Qed.

(** ** Adding and deleting an item *)

Lemma getProp_None_state e : toArray (getProp None_state e) = [].
Proof. done. Qed.


(** C3, as amended.  [onRefsAddItem] is [onRefsUpdateItem] with the dirty-set
    filtering disabled: every tracked property is processed, against the
    persisted state that [item.read] returns.  When that state holds no id
    for the tracked properties, as for an item that was never stored, every
    id in the new value of every tracked property fires the registered
    add-actions and no remove-action fires. *)
Theorem onRefsAddItem_empty_prior
    (store : refKey → option StoreItem) (item : Item) (rp : RefProps)
    (newState : gmap string value) :
  item_refProps item = Some rp →
  onRefsAddItem store item newState = onRefsUpdateItem store item newState false ∧
  onRefsAddItem store item newState =
    map (λ e,
           let newValue := toArray (getProp newState e) in
           let oldValue := toArray (getProp (item_read item) e) in
           MkPropTask (map (removedTask item rp e) (removed newValue oldValue))
                      (map (addedTask store item rp e) (added newValue oldValue)))
        (props rp) ∧
  ((∀ e, e ∈ props rp → toArray (getProp (item_read item) e) = []) →
   (∀ e id l a, e ∈ props rp → id ∈ toArray (getProp newState e) →
                AddActions rp !! e = Some l → a ∈ l →
                ∃ t, EvRun Added e id a t ∈ effects (onRefsAddItem store item newState)) ∧
   (∀ e id a t, EvRun Removed e id a t ∉ effects (onRefsAddItem store item newState))).
Proof.
  intros Hrp. split; [done|]. split.
  { unfold onRefsAddItem, onRefsUpdateItem. by rewrite Hrp. }
  intros Hempty. split.
  - intros e id l a He Hid Hl Ha.
    destruct (run_fires_added store item rp newState false e id l a)
      as (t & _ & Ht); try done.
    { rewrite (Hempty e He), added_nil_old. done. }
    by exists t.
  - intros e id a t H. apply run_inv in H as (rp' & Hrp' & He & _ & _ & H & _).
    rewrite Hrp in Hrp'. injection Hrp' as <-.
    rewrite (Hempty e He), removed_nil_old in H. by apply elem_of_nil in H.
Qed.

(** An item that was never stored, added with [bId = b1]: the add-action of
    [bId] runs for [b1]. *)
Lemma onRefsAddItem_empty_prior_witness :
  ∃ t, EvRun Added "bId" (JStr "b1") (SetIDAction "aId") t
         ∈ effects (onRefsAddItem exStore exItemFresh {["bId" := Scalar (JStr "b1")]}).
Proof.
  destruct (onRefsAddItem_empty_prior exStore exItemFresh exRegistry
              {["bId" := Scalar (JStr "b1")]} eq_refl) as (_ & _ & H).
  destruct H as [H _].
  - intros e He. reflexivity.
  - apply (H "bId" (JStr "b1") [SetIDAction "aId"] (SetIDAction "aId")).
    + apply list_elem_of_singleton. reflexivity.
    + apply list_elem_of_singleton. reflexivity.
    + reflexivity.
    + apply list_elem_of_singleton. reflexivity.
Defined.

(** C3 as stated fails: the prior state is what [item.read] returns.  Adding
    the item [a1] with [bId = b1] while the persisted [bId] is [b0] runs the
    remove-actions registered for [bId] against [b0]. *)
Lemma onRefsAddItem_prior_state_counterexample :
  ¬ (∀ store item rp newState,
       item_refProps item = Some rp →
       (∀ e id l a, e ∈ props rp → id ∈ toArray (getProp newState e) →
                    AddActions rp !! e = Some l → a ∈ l →
                    ∃ t, EvRun Added e id a t
                           ∈ effects (onRefsAddItem store item newState)) ∧
       (∀ e id a t, EvRun Removed e id a t
                      ∉ effects (onRefsAddItem store item newState))).
Proof.
  intros H.
  destruct (H exStore exItem exRegistry {["bId" := Scalar (JStr "b1")]} eq_refl)
    as [_ Hno].
  apply (Hno "bId" (JStr "b0") (SetIDAction "aId") (Handle (RefKey "B" (JStr "b0")))).
  vm_compute. apply list_elem_of_here.
Qed.

(** ** Schedules *)

Lemma interleave_nil_task {A : Type} (ts : list (list A)) (tr : list A) :
  interleave ts tr → interleave ([] :: ts) tr.
Proof.
  induction 1 as [ts Hts|ts1 ts2 x t tr _ IH].
  - apply interleave_done. by constructor.
  - apply (interleave_step ([] :: ts1)). exact IH.
Qed.

Lemma interleave_first_task {A : Type} (t : list A) (ts : list (list A)) (tr : list A) :
  interleave ts tr → interleave (t :: ts) (t ++ tr).
Proof.
  intros H. induction t as [|x t IH]; simpl.
  - by apply interleave_nil_task.
  - apply (interleave_step []). exact IH.
Qed.

Lemma interleave_concat {A : Type} (ts : list (list A)) : interleave ts (concat ts).
Proof.
  induction ts as [|t ts IH]; simpl.
  - apply interleave_done. constructor.
  - by apply interleave_first_task.
Qed.

(** Running every task to completion when it is started is a schedule. *)
Lemma programOrder_schedule (pts : list propTask) : schedule pts (programOrder pts).
Proof.
  exists (map (λ pt, concat (removedTasks pt) ++ concat (addedTasks pt)) pts). split.
  - induction pts as [|pt pts IH]; simpl; constructor; [|done].
    eexists _, _. split; [apply interleave_concat|]. split; [apply interleave_concat|done].
  - apply interleave_concat.
Qed.

(** A schedule performs the effects of the tasks, each of them once. *)
Lemma interleave_Permutation {A : Type} (ts : list (list A)) (tr : list A) :
  interleave ts tr → tr ≡ₚ concat ts.
Proof.
  induction 1 as [ts Hts|ts1 ts2 x t tr _ IH].
  - induction Hts as [|t ts -> _ IH]; [done | exact IH].
  - rewrite concat_app in IH |- *. simpl in IH |- *.
    rewrite IH. apply Permutation_middle.
Qed.

Lemma schedule_Permutation (pts : list propTask) (tr : list event) :
  schedule pts tr → tr ≡ₚ effects pts.
Proof.
  intros (trs & Hall & Hil). apply interleave_Permutation in Hil. rewrite Hil.
  unfold effects, programOrder. clear Hil.
  induction Hall as [|pt t pts trs (tr1 & tr2 & H1 & H2 & ->) _ IH]; simpl; [done|].
  apply interleave_Permutation in H1, H2. by rewrite H1, H2, IH.
Qed.

(** An effect of an interleaving is an effect of one of the tasks, and what
    that task did before it was done before it in the interleaving. *)
Lemma interleave_prefix {A : Type} (ts : list (list A)) (tr : list A) :
  interleave ts tr →
  ∀ pre x post, tr = pre ++ x :: post →
  ∃ t pre' post', t ∈ ts ∧ t = pre' ++ x :: post' ∧ ∀ y, y ∈ pre' → y ∈ pre.
Proof.
  induction 1 as [ts Hts|ts1 ts2 x0 t tr _ IH]; intros pre x post Heq.
  - by destruct pre.
  - destruct pre as [|p pre]; simplify_eq/=.
    + exists (x :: t), [], t. split; [|done].
      apply elem_of_app. right. apply list_elem_of_here.
    + destruct (IH pre x post eq_refl) as (t' & pre' & post' & Hin & -> & Hsub).
      apply elem_of_app in Hin as [Hin|Hin]; [|apply elem_of_cons in Hin as [Heq|Hin]].
      * exists (pre' ++ x :: post'), pre', post'. split; [|split; [done|]].
        { apply elem_of_app. by left. }
        intros y Hy. apply list_elem_of_further. by apply Hsub.
      * subst t. exists (p :: pre' ++ x :: post'), (p :: pre'), post'.
        split; [|split; [done|]].
        { apply elem_of_app. right. apply list_elem_of_here. }
        intros y [->|Hy]%elem_of_cons; [apply list_elem_of_here|].
        apply list_elem_of_further. by apply Hsub.
      * exists (pre' ++ x :: post'), pre', post'. split; [|split; [done|]].
        { apply elem_of_app. right. by apply list_elem_of_further. }
        intros y Hy. apply list_elem_of_further. by apply Hsub.
Qed.

Lemma precededIn_interleave {A : Type} (need : A → A → Prop)
    (ts : list (list A)) (tr : list A) :
  Forall (precededIn need) ts → interleave ts tr → precededIn need tr.
Proof.
  intros Hts Hil pre x post y Heq Hneed.
  destruct (interleave_prefix ts tr Hil pre x post Heq)
    as (t & pre' & post' & Hin & Ht & Hsub).
  apply Hsub. rewrite Forall_forall in Hts. by apply (Hts t Hin pre' x post' y).
Qed.

Lemma precededIn_app {A : Type} (need : A → A → Prop) (tr1 tr2 : list A) :
  precededIn need tr1 → precededIn need tr2 → precededIn need (tr1 ++ tr2).
Proof.
  intros H1 H2 pre x post y Heq Hneed.
  apply app_eq_inv in Heq as [(k & -> & Hk)|(k & -> & Hk)].
  - destruct k as [|x' k]; simpl in Hk.
    + by destruct (not_elem_of_nil y (H2 [] x post y (eq_sym Hk) Hneed)).
    + injection Hk as Hx Hpost. subst x' post. by apply (H1 pre x k y).
  - apply elem_of_app. right. by apply (H2 k x post y).
Qed.

(** ** Saving pending local-only targets *)

Lemma removedTask_needs_no_save store item rp e id :
  precededIn (needsSave store) (removedTask item rp e id).
Proof.
  intros pre x post y Heq (e' & id' & a & t & c & -> & _).
  assert (EvRun Added e' id' a t ∈ removedTask item rp e id) as H.
  { rewrite Heq. apply elem_of_app. right. apply list_elem_of_here. }
  apply elem_of_removedTask in H as [(l & a' & _ & _ & ?)|[_ ?]]; done.
Qed.

Lemma addedTask_saves_first store item rp e id :
  precededIn (needsSave store) (addedTask store item rp e id).
Proof.
  intros pre x post y Heq (e' & id' & a & t & c & -> & Hc & Hlocal & ->).
  assert (EvRun Added e' id' a t ∈ addedTask store item rp e id) as H.
  { rewrite Heq. apply elem_of_app. right. apply list_elem_of_here. }
  apply elem_of_addedTask in H
    as [(c' & _ & _ & ?)|[(l & a' & _ & _ & [= -> -> -> Ht])|[_ ?]]]; [done| |done].
  assert (targetKey t = targetOf item e id) as Hk.
  { rewrite Ht. by destruct (store (targetOf item e id)). }
  rewrite Hk in Hc |- *. revert Heq. unfold addedTask. fold (targetOf item e id).
  rewrite Hc, Hlocal. simpl. destruct pre as [|p pre]; [done|].
  intros [= <- _]. apply list_elem_of_here.
Qed.

Lemma propWork_saves_first store item rp newState isUpdate e tr :
  propSchedule (propWork store item rp newState isUpdate e) tr →
  precededIn (needsSave store) tr.
Proof.
  intros (tr1 & tr2 & H1 & H2 & ->). unfold propWork in H1, H2.
  apply precededIn_app.
  - eapply precededIn_interleave; [|exact H1].
    destruct (isUpdate && _); simpl; [constructor|].
    apply Forall_forall. intros t (id & -> & _)%elem_of_map.
    apply removedTask_needs_no_save.
  - eapply precededIn_interleave; [|exact H2].
    destruct (isUpdate && _); simpl; [constructor|].
    apply Forall_forall. intros t (id & -> & _)%elem_of_map.
    apply addedTask_saves_first.
Qed.

Lemma schedule_saves_first store item newState isUpdate tr :
  schedule (onRefsUpdateItem store item newState isUpdate) tr →
  precededIn (needsSave store) tr.
Proof.
  intros (trs & Hall & Hil). apply (precededIn_interleave _ trs tr); [|done].
  clear Hil. unfold onRefsUpdateItem in Hall. destruct (item_refProps item) as [rp|].
  - revert trs Hall. induction (props rp) as [|e ps IH]; simpl; intros trs Hall;
      inversion Hall as [|? t' ? trs' Hpt Hrest]; subst; constructor.
    + by eapply propWork_saves_first.
    + by apply IH.
  - inversion Hall. constructor.
Qed.

(** The effects of a schedule are the effects of the call. *)
Lemma schedule_effects (pts : list propTask) (tr : list event) (x : event) :
  schedule pts tr → x ∈ tr ↔ x ∈ effects pts.
Proof. intros H. by rewrite (schedule_Permutation pts tr H). Qed.

Lemma run_added_target store item newState isUpdate e id a t :
  EvRun Added e id a t ∈ effects (onRefsUpdateItem store item newState isUpdate) →
  t = match store (targetOf item e id) with
      | Some _ => FromStore (targetOf item e id)
      | None => Handle (targetOf item e id)
      end.
Proof.
  intros H. apply elem_of_effects in H as (rp & e' & _ & _ & _ & H).
  destruct H as [(id' & _ & H)|(id' & _ & H)].
  - apply elem_of_removedTask in H as [(l & a' & _ & _ & ?)|[_ ?]]; done.
  - apply elem_of_addedTask in H
      as [(c & _ & _ & ?)|[(l & a' & _ & _ & [= -> -> -> ->])|[_ ?]]]; done.
Qed.

(** C8.  In every schedule of a call of [onRefsUpdateItem], a run of an
    add-action for an added id whose reference resolves, in the in-memory
    item store, to a pending local-only instance is a run against that
    instance and comes after the save of that instance. *)
Theorem save_precedes_add_actions
    (store : refKey → option StoreItem) (item : Item)
    (newState : gmap string value) (isUpdate : bool) (tr : list event) :
  schedule (onRefsUpdateItem store item newState isUpdate) tr →
  ∀ pre post e id a t c,
    tr = pre ++ EvRun Added e id a t :: post →
    store (targetOf item e id) = Some c → isLocalOnly c = true →
    t = FromStore (targetOf item e id) ∧ EvSave (targetOf item e id) ∈ pre.
Proof.
  intros Hs pre post e id a t c Heq Hc Hlocal.
  assert (t = FromStore (targetOf item e id)) as ->.
  { rewrite (run_added_target store item newState isUpdate e id a t), Hc; [done|].
    apply (schedule_effects _ tr); [done|].
    rewrite Heq. apply elem_of_app. right. apply list_elem_of_here. }
  split; [done|].
  apply (schedule_saves_first store item newState isUpdate tr Hs pre _ post _ Heq).
  by exists e, id, a, (FromStore (targetOf item e id)), c.
Qed.

(** The pending local-only record [b1] is saved before [SetIDAction] runs
    against it. *)
Lemma save_precedes_add_actions_witness :
  FromStore (RefKey "B" (JStr "b1")) = FromStore (targetOf exItemFresh "bId" (JStr "b1")) ∧
  EvSave (targetOf exItemFresh "bId" (JStr "b1")) ∈ [EvSave (RefKey "B" (JStr "b1"))].
Proof.
  apply (save_precedes_add_actions exStore exItemFresh
           {["bId" := Scalar (JStr "b1")]} false
           (programOrder (onRefsUpdateItem exStore exItemFresh
                            {["bId" := Scalar (JStr "b1")]} false))
           (programOrder_schedule _)
           [EvSave (RefKey "B" (JStr "b1"))] []
           "bId" (JStr "b1") (SetIDAction "aId")
           (FromStore (RefKey "B" (JStr "b1"))) (MkStoreItem true)).
  - vm_compute. reflexivity.
  - vm_compute. reflexivity.
  - reflexivity.
Defined.

(** ** The registry built by [trackRefs] *)

Lemma lookup_assign (f : string → list Action) (ps : list string)
    (base : gmap string (list Action)) (e : string) :
  assign base (map (λ p, (p, f p)) ps) !! e =
    if decide (e ∈ ps) then Some (f e) else base !! e.
Proof.
  unfold assign. revert base. induction ps as [|p ps IH]; intros base.
  - destruct (decide (e ∈ [])) as [Hin|_]; [by apply elem_of_nil in Hin | done].
  - change (foldl (λ m kv, <[kv.1:=kv.2]> m) (<[p:=f p]> base)
              (map (λ p, (p, f p)) ps) !! e =
            if decide (e ∈ p :: ps) then Some (f e) else base !! e).
    rewrite IH. destruct (decide (e ∈ ps)) as [Hin|Hnin].
    + rewrite decide_True; [done|]. by apply list_elem_of_further.
    + destruct (decide (p = e)) as [->|Hne].
      * rewrite lookup_insert_eq, decide_True; [done|]. apply list_elem_of_here.
      * rewrite lookup_insert_ne by done. rewrite decide_False; [done|].
        intros [?|?]%elem_of_cons; congruence.
Qed.

Lemma mapM_concatActions_fresh (fresh news : list Action) (ps : list string) :
  mapM (concatActions None fresh news) ps = Some (map (λ p, (p, fresh)) ps).
Proof.
  apply mapM_Some. induction ps as [|p ps IH]; simpl; by constructor.
Qed.

Lemma mapM_concatActions_prev (m : gmap string (list Action))
    (fresh news : list Action) (ps : list string) :
  (∀ e, e ∈ ps → is_Some (m !! e)) →
  mapM (concatActions (Some m) fresh news) ps =
    Some (map (λ p, (p, default [] (m !! p) ++ news)) ps).
Proof.
  intros H. apply mapM_Some. induction ps as [|p ps IH]; simpl; constructor.
  - destruct (H p) as [l Hl]; [apply list_elem_of_here|]. simpl. by rewrite Hl.
  - apply IH. intros e He. apply H. by apply list_elem_of_further.
Qed.

Lemma mapM_concatActions_missing (m : gmap string (list Action))
    (fresh news : list Action) (ps : list string) (e : string) :
  e ∈ ps → m !! e = None → mapM (concatActions (Some m) fresh news) ps = None.
Proof.
  intros He Hm. apply mapM_None. apply Exists_exists. exists e. split; [done|].
  simpl. by rewrite Hm.
Qed.

Lemma update_eq (r : ref) (o : obj) (h : heap) : update r o h r = o.
Proof. unfold update. by rewrite decide_True. Qed.

Lemma update_ne (r r' : ref) (o : obj) (h : heap) : r ≠ r' → update r o h r' = h r'.
Proof. intros H. unfold update. by rewrite decide_False. Qed.

(** On a class without registry. *)
Lemma trackRefs_fresh h ItemClass ps addActions removeActions :
  prototype_refProps (h ItemClass) = None →
  trackRefs h ItemClass ps addActions removeActions =
    Ok (update ItemClass
          (set_prototype_refProps
             (MkRefProps ps
                (assign ∅ (map (λ p, (p, addActions)) ps))
                (assign ∅ (map (λ p, (p, addActions)) ps)))
             (markTriggersUpdateTxn ps true (h ItemClass))) h).
Proof.
  intros Hprev. unfold trackRefs. rewrite Hprev. simpl.
  by rewrite !mapM_concatActions_fresh.
Qed.

(** On a class whose registry has action lists for the listed properties. *)
Lemma trackRefs_prev h ItemClass ps addActions removeActions prev :
  prototype_refProps (h ItemClass) = Some prev →
  (∀ e, e ∈ ps → is_Some (AddActions prev !! e) ∧ is_Some (RemoveActions prev !! e)) →
  trackRefs h ItemClass ps addActions removeActions =
    Ok (update ItemClass
          (set_prototype_refProps
             (MkRefProps (props prev ++ ps)
                (assign (AddActions prev)
                   (map (λ p, (p, default [] (AddActions prev !! p) ++ addActions)) ps))
                (assign (RemoveActions prev)
                   (map (λ p, (p, default [] (RemoveActions prev !! p) ++ removeActions)) ps)))
             (markTriggersUpdateTxn ps true (h ItemClass))) h).
Proof.
  intros Hprev H. unfold trackRefs. rewrite Hprev. simpl.
  rewrite !mapM_concatActions_prev; [done|..]; intros e He; by apply H.
Qed.

(** On a class whose registry lacks an action list of a listed property. *)
Lemma trackRefs_missing h ItemClass ps addActions removeActions prev e :
  prototype_refProps (h ItemClass) = Some prev →
  e ∈ ps → AddActions prev !! e = None ∨ RemoveActions prev !! e = None →
  trackRefs h ItemClass ps addActions removeActions = Throw TypeError h.
Proof.
  intros Hprev He H. unfold trackRefs. rewrite Hprev. simpl.
  destruct (mapM (concatActions (Some (AddActions prev)) _ _) ps) as [adds|] eqn:Hadds;
    [|done].
  destruct H as [H|H].
  - by rewrite (mapM_concatActions_missing _ _ _ ps e) in Hadds.
  - by rewrite (mapM_concatActions_missing _ _ _ ps e).
Qed.

Lemma trackRefs_throws h ItemClass ps addActions removeActions err h' :
  trackRefs h ItemClass ps addActions removeActions = Throw err h' →
  err = TypeError ∧ h' = h.
Proof.
  unfold trackRefs. repeat case_match; by intros [= <- <-].
Qed.

Lemma registryOk_fresh ps addActions :
  registryOk (MkRefProps ps (assign ∅ (map (λ p, (p, addActions)) ps))
                            (assign ∅ (map (λ p, (p, addActions)) ps))).
Proof.
  intros e. simpl. rewrite lookup_assign, lookup_empty.
  destruct (decide (e ∈ ps)); split; split; try done; by intros [? ?].
Qed.

Lemma registryOk_prev prev ps addActions removeActions :
  registryOk prev → (∀ e, e ∈ ps → e ∈ props prev) →
  registryOk
    (MkRefProps (props prev ++ ps)
       (assign (AddActions prev)
          (map (λ p, (p, default [] (AddActions prev !! p) ++ addActions)) ps))
       (assign (RemoveActions prev)
          (map (λ p, (p, default [] (RemoveActions prev !! p) ++ removeActions)) ps))).
Proof.
  intros Hok Hps e. simpl. rewrite !lookup_assign, elem_of_app.
  destruct (Hok e) as [Ha Hr].
  destruct (decide (e ∈ ps)) as [He|He].
  - split; split; try done; intros _; by right.
  - rewrite <- Ha, <- Hr. split; split; try tauto; by left.
Qed.

(** [trackRefs] keeps the registry of a class well formed. *)
Lemma trackRefs_registryOk h ItemClass ps addActions removeActions h' :
  (∀ prev, prototype_refProps (h ItemClass) = Some prev → registryOk prev) →
  trackRefs h ItemClass ps addActions removeActions = Ok h' →
  ∃ rp, prototype_refProps (h' ItemClass) = Some rp ∧ registryOk rp.
Proof.
  intros Hok H. destruct (prototype_refProps (h ItemClass)) as [prev|] eqn:Hprev.
  - specialize (Hok prev eq_refl).
    destruct (decide (Forall (λ e, e ∈ props prev) ps)) as [Hall|Hex].
    + rewrite Forall_forall in Hall.
      rewrite (trackRefs_prev _ _ _ _ _ prev) in H; [|done|].
      * injection H as <-. rewrite update_eq. eexists. split; [done|].
        by apply registryOk_prev.
      * intros e He. destruct (Hok e) as [Ha Hr]. split; [apply Ha | apply Hr]; auto.
    + apply not_Forall_Exists in Hex; [|apply _].
      apply Exists_exists in Hex as (e & He & Hne).
      rewrite (trackRefs_missing _ _ _ _ _ prev e) in H; [done..|].
      left. destruct (Hok e) as [Ha _]. apply eq_None_not_Some. by rewrite <- Ha.
  - rewrite trackRefs_fresh in H by done. injection H as <-. rewrite update_eq.
    eexists. split; [done|]. apply registryOk_fresh.
Qed.

Lemma exHeapRegistered_registry :
  prototype_refProps (exHeapRegistered "AItem") = Some exRegistry.
Proof. reflexivity. Qed.

Lemma exHeapTracked_registry :
  prototype_refProps (exHeapTracked "AItem") = Some exTracked.
Proof. reflexivity. Qed.

Lemma exRegistry_ok : registryOk exRegistry.
Proof. apply (registryOk_fresh ["bId"] [SetIDAction "aId"]). Qed.

(** C2 fails on the code.  On a class without registry, [trackRefs] stores the
    passed add-actions as the remove-actions of the listed property: after
    [trackRefs(AItem, ["bId"], [new SetIDAction("aId")],
    [new UnsetIDAction("aId")])] the remove-actions of [bId] are
    [[SetIDAction "aId"]] and not the passed [[UnsetIDAction "aId"]]. *)
Theorem trackRefs_fresh_remove_actions :
  ∃ h' rp,
    prototype_refProps (exHeap "AItem") = None ∧
    trackRefs exHeap "AItem" ["bId"] [SetIDAction "aId"] [UnsetIDAction "aId"] = Ok h' ∧
    prototype_refProps (h' "AItem") = Some rp ∧
    props rp = ["bId"] ∧
    AddActions rp !! "bId" = Some ([] ++ [SetIDAction "aId"]) ∧
    RemoveActions rp !! "bId" = Some [SetIDAction "aId"] ∧
    RemoveActions rp !! "bId" ≠ Some ([] ++ [UnsetIDAction "aId"]).
Proof.
  eexists _, _. split; [done|]. split; [by apply trackRefs_fresh|].
  rewrite update_eq. split; [done|]. simpl. rewrite !lookup_insert_eq. done.
Qed.

(** C10.  On a class that has a registry, [trackRefs] fails with a
    [TypeError], and stores nothing, as soon as one listed property is not
    tracked by that registry; it succeeds when every listed property is. *)
Theorem trackRefs_new_property_fails
    (h : heap) (ItemClass : ref) (ps : list string)
    (addActions removeActions : list Action) (prev : RefProps) :
  prototype_refProps (h ItemClass) = Some prev → registryOk prev →
  (∀ e, e ∈ ps → e ∉ props prev →
        trackRefs h ItemClass ps addActions removeActions = Throw TypeError h) ∧
  ((∀ e, e ∈ ps → e ∈ props prev) →
        ∃ h', trackRefs h ItemClass ps addActions removeActions = Ok h').
Proof.
  intros Hprev Hok. split.
  - intros e He Hne. apply (trackRefs_missing _ _ _ _ _ prev e); [done..|].
    left. destruct (Hok e) as [Ha _]. apply eq_None_not_Some. by rewrite <- Ha.
  - intros Hall. eexists. apply (trackRefs_prev _ _ _ _ _ prev); [done|].
    intros e He. destruct (Hok e) as [Ha Hr]. split; [apply Ha | apply Hr]; auto.
Qed.

(** Extending the registry of [AItem], which tracks [bId], with [cId]. *)
Lemma trackRefs_new_property_fails_witness :
  trackRefs exHeapRegistered "AItem" ["bId"; "cId"] [AppendIDAction "x"] [] =
    Throw TypeError exHeapRegistered.
Proof.
  destruct (trackRefs_new_property_fails exHeapRegistered "AItem" ["bId"; "cId"]
              [AppendIDAction "x"] [] exRegistry exHeapRegistered_registry
              exRegistry_ok) as [H _].
  apply (H "cId").
  - apply list_elem_of_further, list_elem_of_here.
  - intros Hin. apply list_elem_of_singleton in Hin. discriminate Hin.
Defined.

(** ** Deleting an item *)










(** The action lists of a listed property after a successful [trackRefs]:
    with a prior registry, the prior lists followed by the passed ones; on a
    class without registry, the passed add-actions, for both lists. *)
Lemma trackRefs_Ok_lookup h ItemClass ps addActions removeActions h1 e :
  trackRefs h ItemClass ps addActions removeActions = Ok h1 → e ∈ ps →
  ∃ rp, prototype_refProps (h1 ItemClass) = Some rp ∧
    match prototype_refProps (h ItemClass) with
    | None =>
        AddActions rp !! e = Some addActions ∧ RemoveActions rp !! e = Some addActions
    | Some prev =>
        ∃ la lr, AddActions prev !! e = Some la ∧ RemoveActions prev !! e = Some lr ∧
                 AddActions rp !! e = Some (la ++ addActions) ∧
                 RemoveActions rp !! e = Some (lr ++ removeActions)
    end.
Proof.
  intros H He. destruct (prototype_refProps (h ItemClass)) as [prev|] eqn:Hprev.
  - destruct (decide (Forall (λ p, is_Some (AddActions prev !! p) ∧
                                   is_Some (RemoveActions prev !! p)) ps)) as [Hall|Hex].
    + rewrite Forall_forall in Hall.
      rewrite (trackRefs_prev _ _ _ _ _ prev) in H by done.
      injection H as <-. rewrite update_eq. eexists. split; [done|]. simpl.
      destruct (Hall e He) as [[la Hla] [lr Hlr]]. exists la, lr.
      rewrite !lookup_assign, !decide_True, Hla, Hlr by done. done.
    + apply not_Forall_Exists in Hex; [|apply _].
      apply Exists_exists in Hex as (p & Hp & Hne).
      rewrite (trackRefs_missing _ _ _ _ _ prev p) in H; [done..|].
      apply not_and_l in Hne as [Hne|Hne]; [left | right]; by apply eq_None_not_Some.
  - rewrite trackRefs_fresh in H by done. injection H as <-. rewrite update_eq.
    eexists. split; [done|]. simpl. by rewrite !lookup_assign, !decide_True.
Qed.

Lemma prototype_refProps_setRefModel h r isArray prop target r' :
  prototype_refProps (update r (setRefModel isArray prop target (h r)) h r') =
    prototype_refProps (h r').
Proof.
  unfold update. destruct (decide (r = r')) as [->|]; done.
Qed.

(** ** The association builders *)

Lemma connectAddActions_eq isArray2 isTwoWay prop2 :
  connectAddActions isArray2 isTwoWay prop2 =
    if isArray2 then [AppendIDAction prop2]
    else if isTwoWay then [SetIDAction prop2] else [].
Proof. by destruct isArray2, isTwoWay. Qed.

Lemma connectRemoveActions_eq deleteOnRemove isTwoWay prop2 :
  connectRemoveActions deleteOnRemove isTwoWay prop2 =
    if deleteOnRemove then [DeleteItemAction]
    else if isTwoWay then [UnsetIDAction prop2] else [].
Proof. by destruct deleteOnRemove, isTwoWay. Qed.

(** What a [connect] that does not raise hands to [trackRefs] for [prop1]. *)
Lemma connect_trackRefs h model1 prop1 model2 prop2 deleteOnRemove noRecurse h' :
  connect h model1 prop1 model2 prop2 deleteOnRemove noRecurse = Ok h' →
  ∃ h1, trackRefs h (_Item (h model1)) [prop1]
          (if isArray2 h model2 prop2 then [AppendIDAction prop2]
           else if isGiven prop2 then [SetIDAction prop2] else [])
          (if deleteOnRemove then [DeleteItemAction]
           else if isGiven prop2 then [UnsetIDAction prop2] else []) = Ok h1.
Proof.
  unfold connect, connectOnce. intros H.
  destruct (negb (declared (Meta (h model1) prop1))); [done|].
  destruct (isGiven prop2 && negb (declared (Meta (h model2) prop2))); [done|].
  destruct (isArray2 h model2 prop2 && deleteOnRemove); [done|].
  rewrite connectAddActions_eq, connectRemoveActions_eq in H.
  destruct (trackRefs h _ _ _ _) as [h1|]; [by exists h1 | done].
Qed.

(** C6 fails on the code.  [connect(A, "bId", B, "aId", true)] on models
    without registry hands [[SetIDAction "aId"]] and [[DeleteItemAction]] to
    [trackRefs], but the registry entry of [bId] on [A]'s item class gets the
    remove-actions [[SetIDAction "aId"]] and not [[DeleteItemAction]]. *)
Theorem connect_fresh_remove_actions :
  ∃ h' rp,
    connect exHeap "A" "bId" "B" "aId" true false = Ok h' ∧
    isArray2 exHeap "B" "aId" = false ∧ isGiven "aId" = true ∧
    prototype_refProps (h' (_Item (exHeap "A"))) = Some rp ∧
    AddActions rp !! "bId" = Some [SetIDAction "aId"] ∧
    RemoveActions rp !! "bId" = Some [SetIDAction "aId"] ∧
    RemoveActions rp !! "bId" ≠ Some [DeleteItemAction].
Proof.
  eexists _, _. split; [vm_compute; reflexivity|].
  split; [done|]. split; [done|]. split; [vm_compute; reflexivity|].
  split; [vm_compute; reflexivity|]. split; [vm_compute; reflexivity|].
  vm_compute. discriminate.
Qed.

Lemma throw_is_TypeError store item newState isUpdate err :
  EvThrow err ∈ effects (onRefsUpdateItem store item newState isUpdate) →
  err = TypeError.
Proof.
  intros H. apply elem_of_effects in H as (rp & e & _ & _ & _ & H).
  destruct H as [(id & _ & H)|(id & _ & H)].
  - apply elem_of_removedTask in H as [(l & a & _ & _ & ?)|[_ [= ->]]]; done.
  - apply elem_of_addedTask in H
      as [(c & _ & _ & ?)|[(l & a & _ & _ & ?)|[_ [= ->]]]]; done.
Qed.

(** ** The search index adapter *)

Lemma hasProp_true (x : gmap string value) (e : string) :
  hasProp x e = true ↔ is_Some (x !! e).
Proof. unfold hasProp. apply bool_decide_eq_true. Qed.

Lemma lookup_fillFromPersisted (newState prevState : gmap string value)
    (ps : list string) (e : string) :
  fillFromPersisted newState prevState ps !! e =
    match newState !! e with
    | Some v => Some v
    | None => if decide (e ∈ ps) then Some (getProp prevState e) else None
    end.
Proof.
  unfold fillFromPersisted. revert newState.
  induction ps as [|p ps IH]; intros newState.
  - simpl. destruct (newState !! e); [done|].
    destruct (decide (e ∈ [])) as [Hin|_]; [by apply elem_of_nil in Hin | done].
  - change (foldl (λ x e0, if hasProp x e0 then x else <[e0:=getProp prevState e0]> x)
              (if hasProp newState p then newState
               else <[p:=getProp prevState p]> newState) ps !! e = 
            match newState !! e with
            | Some v => Some v
            | None => if decide (e ∈ p :: ps) then Some (getProp prevState e) else None
            end).
    rewrite IH. destruct (hasProp newState p) eqn:Hp.
    + apply hasProp_true in Hp as [v Hv]. destruct (newState !! e) eqn:He; [done|].
      assert (e ≠ p) by congruence.
      destruct (decide (e ∈ ps)) as [Hin|Hnin].
      * rewrite decide_True; [done|]. by apply list_elem_of_further.
      * rewrite decide_False; [done|]. intros [?|?]%elem_of_cons; congruence.
    + assert (newState !! p = None) as Hnone.
      { apply eq_None_not_Some. rewrite <- hasProp_true. by rewrite Hp. }
      destruct (decide (p = e)) as [->|Hne].
      * rewrite lookup_insert_eq, Hnone, decide_True; [done|]. apply list_elem_of_here.
      * rewrite lookup_insert_ne by done. destruct (newState !! e); [done|].
        destruct (decide (e ∈ ps)) as [Hin|Hnin].
        -- rewrite decide_True; [done|]. by apply list_elem_of_further.
        -- rewrite decide_False; [done|]. intros [?|?]%elem_of_cons; congruence.
Qed.

Lemma getProp_fillFromPersisted (newState prevState : gmap string value)
    (ps : list string) (e : string) :
  e ∈ ps →
  getProp (fillFromPersisted newState prevState ps) e = mergedValue newState prevState e.
Proof.
  intros He. unfold getProp at 1, mergedValue. rewrite lookup_fillFromPersisted.
  destruct (newState !! e); [done|]. by rewrite decide_True.
Qed.

Lemma indexText_fillFromPersisted (newState prevState : gmap string value)
    (ps : list string) :
  indexText ps (fillFromPersisted newState prevState ps) =
    String.concat " " (map (λ e, String_ (orEmpty (mergedValue newState prevState e))) ps).
Proof.
  unfold indexText. f_equal. apply map_ext_in. intros e He.
  rewrite getProp_fillFromPersisted; [done|]. by apply list_elem_of_In.
Qed.

(** C9.  When an indexed property changed, [updateInTxn] upserts the entry
    that the indexer computes from the state [x] made of the candidate new
    state and, for every indexed property that the candidate lacks, of the
    persisted value.  With the indexer that [indexForSearch] registers for
    [createIndexEntry], the tokens are those of the text made of the candidate
    values and, for the indexed properties that were not updated, of the
    persisted values. *)
Theorem updateInTxn_fills_from_persisted
    (item : SearchItem) (sp : SearchIndexProps) (newState : gmap string value) :
  sitem_searchIndexProps item = Some sp →
  existsb (sitem_didUpdate item) (sprops sp) = true →
  ∃ x, updateInTxn item newState = Some (_id item, indexer sp (_id item) x) ∧
    (∀ e v, newState !! e = Some v → x !! e = Some v) ∧
    (∀ e, e ∈ sprops sp → newState !! e = None →
          x !! e = Some (getProp (sitem_read item) e)) ∧
    (∀ e, e ∉ sprops sp → x !! e = newState !! e) ∧
    (∀ parseQuery ps,
       sp = (indexForSearch None ps (createIndexEntry parseQuery)).1 →
       tokens (indexer sp (_id item) x) =
         filter_uniq
           (concat (parseQuery
              (String.concat " "
                 (map (λ e, String_ (orEmpty (mergedValue newState (sitem_read item) e)))
                      ps))))).
Proof.
  intros Hsp Hupd. exists (fillFromPersisted newState (sitem_read item) (sprops sp)).
  split; [|split; [|split; [|split]]].
  - unfold updateInTxn. by rewrite Hsp, Hupd.
  - intros e v He. by rewrite lookup_fillFromPersisted, He.
  - intros e He Hnone. by rewrite lookup_fillFromPersisted, Hnone, decide_True.
  - intros e He. rewrite lookup_fillFromPersisted.
    destruct (newState !! e); [done|]. by rewrite decide_False.
  - intros parseQuery ps ->. simpl.
    by rewrite app_nil_r, indexText_fillFromPersisted.
Qed.

(** Updating only [body] of an item persisted with the title [Foo Bar]. *)
Lemma updateInTxn_fills_from_persisted_witness :
  _id exSearchItem = "items^a1" ∧
  ∃ x, updateInTxn exSearchItem {["body" := Scalar (JStr "new")]} =
         Some (_id exSearchItem, indexer exSearchProps (_id exSearchItem) x) ∧
       x !! "title" = Some (Scalar (JStr "Foo Bar")) ∧
       x !! "body" = Some (Scalar (JStr "new")) ∧
       tokens (indexer exSearchProps (_id exSearchItem) x) = ["Foo Bar new"].
Proof.
  split; [reflexivity|].
  destruct (updateInTxn_fills_from_persisted exSearchItem exSearchProps
              {["body" := Scalar (JStr "new")]} eq_refl eq_refl)
    as (x & Hx & Hnew & Hold & _ & Htok).
  exists x. split; [exact Hx|]. split; [|split].
  - rewrite (Hold "title"); [reflexivity| |reflexivity].
    apply list_elem_of_here.
  - apply Hnew. reflexivity.
  - rewrite (Htok exParseQuery ["title"; "body"] eq_refl). reflexivity.
Defined.

(** * Further properties *)

(** ** [trackRefs] *)

Lemma trackRefs_Ok_cases h ItemClass ps addActions removeActions h1 :
  trackRefs h ItemClass ps addActions removeActions = Ok h1 →
  (prototype_refProps (h ItemClass) = None ∧
   h1 = update ItemClass
          (set_prototype_refProps
             (MkRefProps ps
                (assign ∅ (map (λ p, (p, addActions)) ps))
                (assign ∅ (map (λ p, (p, addActions)) ps)))
             (markTriggersUpdateTxn ps true (h ItemClass))) h) ∨
  (∃ prev, prototype_refProps (h ItemClass) = Some prev ∧
     (∀ e, e ∈ ps → is_Some (AddActions prev !! e) ∧ is_Some (RemoveActions prev !! e)) ∧
     h1 = update ItemClass
            (set_prototype_refProps
               (MkRefProps (props prev ++ ps)
                  (assign (AddActions prev)
                     (map (λ p, (p, default [] (AddActions prev !! p) ++ addActions)) ps))
                  (assign (RemoveActions prev)
                     (map (λ p, (p, default [] (RemoveActions prev !! p) ++ removeActions))
                          ps)))
               (markTriggersUpdateTxn ps true (h ItemClass))) h).
Proof.
  intros H. destruct (prototype_refProps (h ItemClass)) as [prev|] eqn:Hprev.
  - right. exists prev. split; [done|].
    destruct (decide (Forall (λ p, is_Some (AddActions prev !! p) ∧
                                   is_Some (RemoveActions prev !! p)) ps)) as [Hall|Hex].
    + rewrite Forall_forall in Hall. split; [done|].
      rewrite (trackRefs_prev _ _ _ _ _ prev) in H by done. by injection H as <-.
    + apply not_Forall_Exists in Hex; [|apply _].
      apply Exists_exists in Hex as (p & Hp & Hne).
      rewrite (trackRefs_missing _ _ _ _ _ prev p) in H; [done..|].
      apply not_and_l in Hne as [Hne|Hne]; [left | right]; by apply eq_None_not_Some.
  - left. split; [done|]. rewrite trackRefs_fresh in H by done. by injection H as <-.
Qed.

(** X1.  [trackRefs] raises exactly when the class has a registry in which a
    listed property lacks an add-action list or a remove-action list; what it
    raises is a [TypeError], and the heap is the one it was called on. *)
Theorem trackRefs_raises_iff
    (h : heap) (ItemClass : ref) (ps : list string)
    (addActions removeActions : list Action) (err : error) (h' : heap) :
  trackRefs h ItemClass ps addActions removeActions = Throw err h' ↔
    err = TypeError ∧ h' = h ∧
    ∃ prev e, prototype_refProps (h ItemClass) = Some prev ∧ e ∈ ps ∧
              (AddActions prev !! e = None ∨ RemoveActions prev !! e = None).
Proof.
  split.
  - intros H. destruct (trackRefs_throws _ _ _ _ _ _ _ H) as [-> ->].
    do 2 (split; [done|]).
    destruct (prototype_refProps (h ItemClass)) as [prev|] eqn:Hprev.
    + exists prev.
      destruct (decide (Forall (λ p, is_Some (AddActions prev !! p) ∧
                                     is_Some (RemoveActions prev !! p)) ps)) as [Hall|Hex].
      * rewrite Forall_forall in Hall.
        by rewrite (trackRefs_prev _ _ _ _ _ prev) in H.
      * apply not_Forall_Exists in Hex; [|apply _].
        apply Exists_exists in Hex as (p & Hp & Hne). exists p. do 2 (split; [done|]).
        apply not_and_l in Hne as [Hne|Hne]; [left | right]; by apply eq_None_not_Some.
    + by rewrite trackRefs_fresh in H.
  - intros (-> & -> & prev & e & Hprev & He & Hnone).
    by apply (trackRefs_missing _ _ _ _ _ prev e).
Qed.



Lemma heapOk_update h r o :
  heapOk h → (∀ rp, prototype_refProps o = Some rp → registryOk rp) →
  heapOk (update r o h).
Proof.
  intros Hh Ho r' rp. unfold update. destruct (decide (r = r')); [apply Ho | apply Hh].
Qed.

Lemma heapOk_trackRefs h ItemClass ps addActions removeActions :
  heapOk h → heapOk (outcomeHeap (trackRefs h ItemClass ps addActions removeActions)).
Proof.
  intros Hh.
  destruct (trackRefs h ItemClass ps addActions removeActions) as [h1|err h1] eqn:H; simpl.
  - destruct (trackRefs_registryOk _ _ _ _ _ _ (Hh ItemClass) H) as (rp & Hrp & Hok).
    intros r rp' Hr. destruct (decide (r = ItemClass)) as [->|Hne].
    + rewrite Hrp in Hr. by injection Hr as <-.
    + apply trackRefs_Ok_cases in H as [[_ ->]|(prev & _ & _ & ->)];
        rewrite update_ne in Hr by done; by apply (Hh r).
  - by apply trackRefs_throws in H as [_ ->].
Qed.

Lemma heapOk_exHeap : heapOk exHeap.
Proof. intros r rp H. discriminate H. Qed.

(** X3.  [trackRefs] keeps every registry of the heap well formed (the
    tracked properties are exactly those with an add-action list and a
    remove-action list), whether it returns or raises. *)
Theorem trackRefs_keeps_registries_ok
    (h : heap) (ItemClass : ref) (ps : list string)
    (addActions removeActions : list Action) :
  heapOk h → heapOk (outcomeHeap (trackRefs h ItemClass ps addActions removeActions)).
Proof. apply heapOk_trackRefs. Qed.

Lemma trackRefs_keeps_registries_ok_witness : heapOk exHeapTwice.
Proof.
  apply (trackRefs_keeps_registries_ok exHeapRegistered "AItem" ["bId"]
           [AppendIDAction "log"] [RemoveIDAction "log"]).
  apply (trackRefs_keeps_registries_ok exHeap "AItem" ["bId"]
           [SetIDAction "aId"] [UnsetIDAction "aId"]).
  intros r rp H. discriminate H.
Defined.

Lemma trackRefs_redeclare_aux h ItemClass ps1 a1 r1 ps2 a2 r2 :
  prototype_refProps (h ItemClass) = None → (∀ e, e ∈ ps2 → e ∈ ps1) →
  ∃ h1 h2 rp,
    trackRefs h ItemClass ps1 a1 r1 = Ok h1 ∧
    trackRefs h1 ItemClass ps2 a2 r2 = Ok h2 ∧
    prototype_refProps (h2 ItemClass) = Some rp ∧
    props rp = ps1 ++ ps2 ∧
    (∀ e, e ∈ ps2 →
          AddActions rp !! e = Some (a1 ++ a2) ∧ RemoveActions rp !! e = Some (a1 ++ r2)) ∧
    (∀ e, e ∈ ps1 → e ∉ ps2 →
          AddActions rp !! e = Some a1 ∧ RemoveActions rp !! e = Some a1).
Proof.
  intros Hfresh Hsub.
  set (rp1 := MkRefProps ps1 (assign ∅ (map (λ p, (p, a1)) ps1))
                             (assign ∅ (map (λ p, (p, a1)) ps1))).
  set (h1 := update ItemClass
               (set_prototype_refProps rp1 (markTriggersUpdateTxn ps1 true (h ItemClass))) h).
  assert (prototype_refProps (h1 ItemClass) = Some rp1) as Hrp1.
  { unfold h1. by rewrite update_eq. }
  assert (∀ e, e ∈ ps1 → AddActions rp1 !! e = Some a1 ∧ RemoveActions rp1 !! e = Some a1)
    as Hlists1.
  { intros e He. simpl. by rewrite lookup_assign, decide_True. }
  assert (trackRefs h ItemClass ps1 a1 r1 = Ok h1) as H1 by by apply trackRefs_fresh.
  assert (props rp1 = ps1) as Hprops1 by done.
  clearbody rp1. exists h1. eexists _, _. split; [done|]. split.
  { apply (trackRefs_prev _ _ _ _ _ rp1); [done|].
    intros e He. destruct (Hlists1 e (Hsub e He)) as [-> ->]. by split. }
  rewrite update_eq. split; [done|]. simpl. split; [by rewrite Hprops1|]. split.
  - intros e He. destruct (Hlists1 e (Hsub e He)) as [Ha Hr].
    rewrite !lookup_assign, !decide_True by done. by rewrite Ha, Hr.
  - intros e He1 He2. rewrite !lookup_assign, !decide_False by done.
    by apply Hlists1.
Qed.

(** X4.  Declaring properties again on a class that had no registry: after
    [trackRefs(C, ps1, a1, r1)] and [trackRefs(C, ps2, a2, r2)] with [ps2]
    among [ps1], both calls succeed, the tracked properties are [ps1 ++ ps2]
    (a property declared twice is listed twice), a property of [ps2] has the
    add-actions [a1 ++ a2] and the remove-actions [a1 ++ r2], and the other
    properties of [ps1] keep [a1] for both. *)
Theorem trackRefs_redeclare
    (h : heap) (ItemClass : ref)
    (ps1 : list string) (a1 r1 : list Action)
    (ps2 : list string) (a2 r2 : list Action) :
  prototype_refProps (h ItemClass) = None → (∀ e, e ∈ ps2 → e ∈ ps1) →
  ∃ h1 h2 rp,
    trackRefs h ItemClass ps1 a1 r1 = Ok h1 ∧
    trackRefs h1 ItemClass ps2 a2 r2 = Ok h2 ∧
    prototype_refProps (h2 ItemClass) = Some rp ∧
    props rp = ps1 ++ ps2 ∧
    (∀ e, e ∈ ps2 →
          AddActions rp !! e = Some (a1 ++ a2) ∧ RemoveActions rp !! e = Some (a1 ++ r2)) ∧
    (∀ e, e ∈ ps1 → e ∉ ps2 →
          AddActions rp !! e = Some a1 ∧ RemoveActions rp !! e = Some a1).
Proof. apply trackRefs_redeclare_aux. Qed.

Lemma trackRefs_redeclare_witness :
  ∃ h1 h2 rp,
    trackRefs exHeap "AItem" ["bId"] [SetIDAction "aId"] [UnsetIDAction "aId"] = Ok h1 ∧
    trackRefs h1 "AItem" ["bId"] [AppendIDAction "log"] [RemoveIDAction "log"] = Ok h2 ∧
    prototype_refProps (h2 "AItem") = Some rp ∧
    props rp = ["bId"] ++ ["bId"] ∧
    (∀ e, e ∈ ["bId"] →
          AddActions rp !! e = Some ([SetIDAction "aId"] ++ [AppendIDAction "log"]) ∧
          RemoveActions rp !! e = Some ([SetIDAction "aId"] ++ [RemoveIDAction "log"])) ∧
    (∀ e, e ∈ ["bId"] → e ∉ ["bId"] →
          AddActions rp !! e = Some [SetIDAction "aId"] ∧
          RemoveActions rp !! e = Some [SetIDAction "aId"]).
Proof.
  apply (trackRefs_redeclare exHeap "AItem" ["bId"] [SetIDAction "aId"]
           [UnsetIDAction "aId"] ["bId"] [AppendIDAction "log"] [RemoveIDAction "log"]).
  - reflexivity.
  - intros e He. exact He.
Defined.

Lemma effects_by_property store item rp newState isUpdate :
  item_refProps item = Some rp →
  effects (onRefsUpdateItem store item newState isUpdate) =
    concat (map (propEffects store item rp newState isUpdate) (props rp)).
Proof.
  intros Hrp. unfold effects, programOrder, onRefsUpdateItem. rewrite Hrp.
  by rewrite map_map.
Qed.

(** X5.  A property that was declared twice is processed twice: after
    [trackRefs(C, ps, a1, r1)] and [trackRefs(C, ps, a2, r2)] on a class that
    had no registry, a call of [onRefsUpdateItem] on an item of the class
    performs the effects of the properties [ps] two times over. *)
Theorem redeclared_properties_run_twice
    (h h1 h2 : heap) (ItemClass : ref) (ps : list string)
    (a1 r1 a2 r2 : list Action)
    (store : refKey → option StoreItem) (item : Item)
    (newState : gmap string value) (isUpdate : bool) :
  prototype_refProps (h ItemClass) = None →
  trackRefs h ItemClass ps a1 r1 = Ok h1 →
  trackRefs h1 ItemClass ps a2 r2 = Ok h2 →
  item_refProps item = prototype_refProps (h2 ItemClass) →
  ∃ rp, item_refProps item = Some rp ∧
    (∀ e, e ∈ ps → AddActions rp !! e = Some (a1 ++ a2)) ∧
    effects (onRefsUpdateItem store item newState isUpdate) =
      concat (map (propEffects store item rp newState isUpdate) ps)
      ++ concat (map (propEffects store item rp newState isUpdate) ps).
Proof.
  intros Hfresh H1 H2 Hitem.
  destruct (trackRefs_redeclare_aux h ItemClass ps a1 r1 ps a2 r2 Hfresh)
    as (h1' & h2' & rp & H1' & H2' & Hrp & Hprops & Hlists & _); [done|].
  rewrite H1 in H1'. injection H1' as <-. rewrite H2 in H2'. injection H2' as <-.
  exists rp. rewrite Hitem. split; [done|]. split; [intros e He; by apply Hlists|].
  rewrite (effects_by_property _ _ rp) by by rewrite Hitem.
  by rewrite Hprops, map_app, concat_app.
Qed.

Lemma redeclared_properties_run_twice_witness :
  ∃ rp, item_refProps exItemTwice = Some rp ∧
    (∀ e, e ∈ ["bId"] →
          AddActions rp !! e = Some ([SetIDAction "aId"] ++ [AppendIDAction "log"])) ∧
    effects (onRefsUpdateItem exStore exItemTwice {["bId" := Scalar (JStr "b1")]} false) =
      concat (map (propEffects exStore exItemTwice rp
                     {["bId" := Scalar (JStr "b1")]} false) ["bId"])
      ++ concat (map (propEffects exStore exItemTwice rp
                        {["bId" := Scalar (JStr "b1")]} false) ["bId"]).
Proof.
  apply (redeclared_properties_run_twice exHeap exHeapRegistered exHeapTwice "AItem"
           ["bId"] [SetIDAction "aId"] [UnsetIDAction "aId"]
           [AppendIDAction "log"] [RemoveIDAction "log"]).
  - reflexivity.
  - vm_compute. reflexivity.
  - vm_compute. reflexivity.
  - reflexivity.
Defined.

(** ** The delta engine *)

(** X6.  With a well-formed registry, as [trackRefs] builds them, a call of
    [onRefsUpdateItem] never rejects for want of an action list. *)
Theorem registry_ok_never_throws
    (store : refKey → option StoreItem) (item : Item)
    (newState : gmap string value) (isUpdate : bool) :
  (∀ rp, item_refProps item = Some rp → registryOk rp) →
  ∀ err, EvThrow err ∉ effects (onRefsUpdateItem store item newState isUpdate).
Proof.
  intros Hok err H. apply elem_of_effects in H as (rp & e & Hrp & He & _ & H).
  destruct (Hok rp Hrp e) as [Ha Hr].
  destruct H as [(id & _ & H)|(id & _ & H)].
  - apply elem_of_removedTask in H as [(l & a & _ & _ & ?)|[Hnone _]]; [done|].
    apply Hr in He as [l Hl]. congruence.
  - apply elem_of_addedTask in H
      as [(c & _ & _ & ?)|[(l & a & _ & _ & ?)|[Hnone _]]]; [done..|].
    apply Ha in He as [l Hl]. congruence.
Qed.

Lemma registry_ok_never_throws_witness :
  EvThrow TypeError ∉ effects (onRefsUpdateItem exStore exItem
                                 {["bId" := Scalar (JStr "b1")]} true).
Proof.
  apply (registry_ok_never_throws exStore exItem {["bId" := Scalar (JStr "b1")]} true).
  intros rp Hrp. injection Hrp as <-. exact exRegistry_ok.
Defined.

(** X7.  When, for every tracked property that is processed, the new value
    and the persisted value hold the same ids (in whatever order and number),
    a call of [onRefsUpdateItem] has no effect at all. *)
Theorem same_ids_no_effects
    (store : refKey → option StoreItem) (item : Item)
    (newState : gmap string value) (isUpdate : bool) :
  (∀ rp e, item_refProps item = Some rp → e ∈ props rp →
           processed item isUpdate e = true →
           ∀ id, (id ∈ toArray (getProp newState e)) ↔
                 (id ∈ toArray (getProp (item_read item) e))) →
  effects (onRefsUpdateItem store item newState isUpdate) = [].
Proof.
  intros Hsame. apply elem_of_nil_inv. intros ev H.
  apply elem_of_effects in H as (rp & e & Hrp & He & Hp & H).
  specialize (Hsame rp e Hrp He Hp).
  destruct H as [(id & Hid & _)|(id & Hid & _)].
  - apply elem_of_removed in Hid as [Hold Hnew]. by apply Hnew, Hsame.
  - apply elem_of_added in Hid as [Hnew Hold]. by apply Hold, Hsame.
Qed.

Lemma same_ids_no_effects_witness :
  effects (onRefsUpdateItem exStore exItem
             {["bId" := Array [JStr "b0"; JStr "b0"]]} true) = [].
Proof.
  apply (same_ids_no_effects exStore exItem {["bId" := Array [JStr "b0"; JStr "b0"]]} true).
  intros rp e Hrp He _ id. injection Hrp as <-.
  apply list_elem_of_singleton in He. subst e.
  change ((id ∈ [JStr "b0"; JStr "b0"]) ↔ (id ∈ [JStr "b0"])).
  rewrite !elem_of_cons. tauto.
Defined.

(** X8.  On an update, a property that the item does not report as updated
    triggers no action, whatever the new state holds for it; when no tracked
    property is reported as updated the call has no effect. *)
Theorem clean_properties_are_skipped
    (store : refKey → option StoreItem) (item : Item)
    (newState : gmap string value) :
  (∀ e, item_didUpdate item e = false →
        ∀ ph id a t, EvRun ph e id a t
                       ∉ effects (onRefsUpdateItem store item newState true)) ∧
  ((∀ rp e, item_refProps item = Some rp → e ∈ props rp →
            item_didUpdate item e = false) →
   effects (onRefsUpdateItem store item newState true) = []).
Proof.
  split.
  - intros e Hclean ph id a t H. apply run_inv in H as (rp & _ & _ & Hp & _).
    unfold processed in Hp. by rewrite Hclean in Hp.
  - intros Hclean. apply elem_of_nil_inv. intros ev H.
    apply elem_of_effects in H as (rp & e & Hrp & He & Hp & _).
    unfold processed in Hp. by rewrite (Hclean rp e Hrp He) in Hp.
Qed.

(** X9.  The engine saves nothing but pending local-only instances of the
    item store that an added id of a processed tracked property refers to. *)
Theorem saves_only_pending_targets
    (store : refKey → option StoreItem) (item : Item)
    (newState : gmap string value) (isUpdate : bool) (k : refKey) :
  EvSave k ∈ effects (onRefsUpdateItem store item newState isUpdate) →
  ∃ rp e id c,
    item_refProps item = Some rp ∧ e ∈ props rp ∧ processed item isUpdate e = true ∧
    id ∈ toArray (getProp newState e) ∧ (id ∉ toArray (getProp (item_read item) e)) ∧
    k = targetOf item e id ∧ store k = Some c ∧ isLocalOnly c = true.
Proof.
  intros H. apply elem_of_effects in H as (rp & e & Hrp & He & Hp & H).
  destruct H as [(id & _ & H)|(id & Hid & H)].
  - apply elem_of_removedTask in H as [(l & a & _ & _ & ?)|[_ ?]]; done.
  - apply elem_of_addedTask in H
      as [(c & Hc & Hlocal & [= ->])|[(l & a & _ & _ & ?)|[_ ?]]]; [|done..].
    apply elem_of_added in Hid as [Hnew Hold]. by exists rp, e, id, c.
Qed.

Lemma saves_only_pending_targets_witness :
  ∃ rp e id c,
    item_refProps exItemFresh = Some rp ∧ e ∈ props rp ∧
    processed exItemFresh false e = true ∧
    id ∈ toArray (getProp {["bId" := Scalar (JStr "b1")]} e) ∧
    (id ∉ toArray (getProp (item_read exItemFresh) e)) ∧
    RefKey "B" (JStr "b1") = targetOf exItemFresh e id ∧
    exStore (RefKey "B" (JStr "b1")) = Some c ∧ isLocalOnly c = true.
Proof.
  apply (saves_only_pending_targets exStore exItemFresh
           {["bId" := Scalar (JStr "b1")]} false (RefKey "B" (JStr "b1"))).
  vm_compute. apply list_elem_of_here.
Defined.

Lemma run_removed_target store item newState isUpdate e id a t :
  EvRun Removed e id a t ∈ effects (onRefsUpdateItem store item newState isUpdate) →
  t = Handle (targetOf item e id).
Proof.
  intros H. apply elem_of_effects in H as (rp & e' & _ & _ & _ & H).
  destruct H as [(id' & _ & H)|(id' & _ & H)].
  - apply elem_of_removedTask in H as [(l & a' & _ & _ & [= -> -> -> ->])|[_ ?]]; done.
  - apply elem_of_addedTask in H
      as [(c & _ & _ & ?)|[(l & a' & _ & _ & ?)|[_ ?]]]; done.
Qed.

(** X10.  Every action runs against the record that has the id at hand in
    the reference model of the property: the reference model of the element
    type for an array-typed property, the property's own otherwise.  A
    remove-action always gets a fresh handle of that record; an add-action
    gets the instance of the item store when there is one, a fresh handle
    otherwise. *)
Theorem run_targets
    (store : refKey → option StoreItem) (item : Item)
    (newState : gmap string value) (isUpdate : bool) :
  (∀ ph e id a t,
     EvRun ph e id a t ∈ effects (onRefsUpdateItem store item newState isUpdate) →
     keyId (targetKey t) = id ∧
     keyModel (targetKey t) =
       if String.eqb (type (item_Meta item e)) "array"
       then arrayType_refModel (item_Meta item e)
       else refModel (item_Meta item e)) ∧
  (∀ e id a t,
     EvRun Removed e id a t ∈ effects (onRefsUpdateItem store item newState isUpdate) →
     t = Handle (targetOf item e id)) ∧
  (∀ e id a t,
     EvRun Added e id a t ∈ effects (onRefsUpdateItem store item newState isUpdate) →
     t = match store (targetOf item e id) with
         | Some _ => FromStore (targetOf item e id)
         | None => Handle (targetOf item e id)
         end).
Proof.
  split; [|split].
  - intros ph e id a t H. apply run_inv in H as (rp & _ & _ & _ & -> & _). done.
  - intros e id a t. apply run_removed_target.
  - intros e id a t. apply run_added_target.
Qed.

(** X11.  After the first declaration on a class, the actions that a removed
    id triggers are the add-actions of the declaration: for an item of the
    class, every remove-action that runs is one of the passed add-actions,
    and every passed add-action runs for every removed id of a processed
    listed property. *)
Theorem first_declaration_removal_runs_add_actions
    (h h1 : heap) (ItemClass : ref) (ps : list string)
    (addActions removeActions : list Action)
    (store : refKey → option StoreItem) (item : Item)
    (newState : gmap string value) (isUpdate : bool) :
  prototype_refProps (h ItemClass) = None →
  trackRefs h ItemClass ps addActions removeActions = Ok h1 →
  item_refProps item = prototype_refProps (h1 ItemClass) →
  (∀ e id a t,
     EvRun Removed e id a t ∈ effects (onRefsUpdateItem store item newState isUpdate) →
     a ∈ addActions) ∧
  (∀ e id a, e ∈ ps → processed item isUpdate e = true →
     id ∈ toArray (getProp (item_read item) e) → id ∉ toArray (getProp newState e) →
     a ∈ addActions →
     EvRun Removed e id a (Handle (targetOf item e id))
       ∈ effects (onRefsUpdateItem store item newState isUpdate)).
Proof.
  intros Hfresh Htrack Hitem.
  rewrite trackRefs_fresh in Htrack by done. injection Htrack as <-.
  rewrite update_eq in Hitem. simpl in Hitem.
  assert (∀ e, e ∈ ps →
            RemoveActions (MkRefProps ps (assign ∅ (map (λ p, (p, addActions)) ps))
                             (assign ∅ (map (λ p, (p, addActions)) ps))) !! e
            = Some addActions) as Hrem.
  { intros e He. simpl. by rewrite lookup_assign, decide_True. }
  split.
  - intros e id a t H. apply run_inv in H as (rp & Hrp & He & _ & _ & _ & l & Hl & Ha).
    rewrite Hitem in Hrp. injection Hrp as <-. rewrite (Hrem e He) in Hl.
    by injection Hl as <-.
  - intros e id a He Hp Hold Hnew Ha.
    eapply run_fires_removed; [exact Hitem|done|done| |by apply Hrem|done].
    by apply elem_of_removed.
Qed.

Lemma first_declaration_removal_runs_add_actions_witness :
  EvRun Removed "bId" (JStr "b0") (SetIDAction "aId")
    (Handle (targetOf exItem "bId" (JStr "b0")))
  ∈ effects (onRefsUpdateItem exStore exItem {["bId" := Scalar (JStr "b1")]} true).
Proof.
  destruct (first_declaration_removal_runs_add_actions exHeap exHeapRegistered "AItem"
              ["bId"] [SetIDAction "aId"] [UnsetIDAction "aId"] exStore exItem
              {["bId" := Scalar (JStr "b1")]} true) as [_ H].
  - reflexivity.
  - vm_compute. reflexivity.
  - reflexivity.
  - apply H.
    + apply list_elem_of_here.
    + reflexivity.
    + apply list_elem_of_here.
    + intros Hin. apply list_elem_of_singleton in Hin. discriminate Hin.
    + apply list_elem_of_here.
Defined.

(** X12.  [toArray] treats a falsy id differently inside and outside an
    array: the one-element array of [x] and the scalar [x] normalise to the
    same ids exactly when [x] is truthy; a scalar gives at most one id, and
    that id is truthy. *)
Theorem toArray_scalar_vs_singleton (x : scalar) :
  (toArray (Array [x]) = toArray (Scalar x) ↔ truthy x = true) ∧
  (List.length (toArray (Scalar x)) ≤ 1)%nat ∧
  (∀ id, id ∈ toArray (Scalar x) → id = x ∧ truthy x = true).
Proof.
  simpl. destruct (truthy x) eqn:Hx; simpl.
  - split; [done|]. split; [lia|]. by intros id ->%list_elem_of_singleton.
  - split; [split; done|]. split; [lia|]. by intros id ?%elem_of_nil.
Qed.

(** ** The association builders *)

Lemma trackRefs_fields h ItemClass ps addActions removeActions r :
  Meta (outcomeHeap (trackRefs h ItemClass ps addActions removeActions) r) = Meta (h r) ∧
  _Item (outcomeHeap (trackRefs h ItemClass ps addActions removeActions) r) = _Item (h r).
Proof.
  destruct (trackRefs h ItemClass ps addActions removeActions) as [h1|err h1] eqn:H; simpl.
  - apply trackRefs_Ok_cases in H as [[_ ->]|(prev & _ & _ & ->)];
      unfold update; by destruct (decide (ItemClass = r)) as [->|].
  - by apply trackRefs_throws in H as [_ ->].
Qed.

Lemma trackRefs_outcome_frame h ItemClass ps addActions removeActions r :
  r ≠ ItemClass →
  outcomeHeap (trackRefs h ItemClass ps addActions removeActions) r = h r.
Proof.
  intros Hr.
  destruct (trackRefs h ItemClass ps addActions removeActions) as [h1|err h1] eqn:H; simpl.
  - apply trackRefs_Ok_cases in H as [[_ ->]|(prev & _ & _ & ->)]; by apply update_ne.
  - by apply trackRefs_throws in H as [_ ->].
Qed.

Lemma connectOnce_Ok_inv h model1 prop1 model2 prop2 deleteOnRemove h2 :
  connectOnce h model1 prop1 model2 prop2 deleteOnRemove = Ok h2 →
  ∃ h1,
    trackRefs h (_Item (h model1)) [prop1]
      (connectAddActions (isArray2 h model2 prop2) (isGiven prop2) prop2)
      (connectRemoveActions deleteOnRemove (isGiven prop2) prop2) = Ok h1 ∧
    h2 = update model1
           (setRefModel (isArrayProp h model1 prop1) prop1 model2 (h1 model1)) h1.
Proof.
  unfold connectOnce.
  destruct (negb (declared (Meta (h model1) prop1))); [done|].
  destruct (isGiven prop2 && negb (declared (Meta (h model2) prop2))); [done|].
  destruct (isArray2 h model2 prop2 && deleteOnRemove); [done|].
  destruct (trackRefs h _ _ _ _) as [h1|err h1]; [|done].
  destruct (isArrayProp h model1 prop1 && negb (has_arrayType (Meta (h1 model1) prop1)));
    [done|].
  intros [= <-]. by exists h1.
Qed.

(** What a [connectOnce] that returns has checked on the way. *)
Lemma connectOnce_Ok_checks h model1 prop1 model2 prop2 deleteOnRemove h2 :
  connectOnce h model1 prop1 model2 prop2 deleteOnRemove = Ok h2 →
  declared (Meta (h model1) prop1) = true ∧
  (isGiven prop2 = true → declared (Meta (h model2) prop2) = true) ∧
  isArray2 h model2 prop2 && deleteOnRemove = false ∧
  (isArrayProp h model1 prop1 = true → has_arrayType (Meta (h model1) prop1) = true).
Proof.
  unfold connectOnce.
  destruct (declared (Meta (h model1) prop1)); [|done]. simpl.
  destruct (isGiven prop2); simpl.
  - destruct (declared (Meta (h model2) prop2)); [|done]. simpl.
    destruct (isArray2 h model2 prop2 && deleteOnRemove); [done|].
    pose proof (λ r, trackRefs_fields h (_Item (h model1)) [prop1]
                (connectAddActions (isArray2 h model2 prop2) true prop2)
                (connectRemoveActions deleteOnRemove true prop2) r) as Hf.
    destruct (trackRefs h _ _ _ _) as [h1|err h1]; [|done]. simpl in Hf.
    destruct (Hf model1) as [-> _].
    destruct (isArrayProp h model1 prop1); [|done]. simpl.
    by destruct (has_arrayType (Meta (h model1) prop1)).
  - destruct (isArray2 h model2 prop2 && deleteOnRemove); [done|].
    pose proof (λ r, trackRefs_fields h (_Item (h model1)) [prop1]
                (connectAddActions (isArray2 h model2 prop2) false prop2)
                (connectRemoveActions deleteOnRemove false prop2) r) as Hf.
    destruct (trackRefs h _ _ _ _) as [h1|err h1]; [|done]. simpl in Hf.
    destruct (Hf model1) as [-> _].
    destruct (isArrayProp h model1 prop1); [|done]. simpl.
    by destruct (has_arrayType (Meta (h model1) prop1)).
Qed.

Lemma connectOnce_Item h model1 prop1 model2 prop2 deleteOnRemove r :
  _Item (outcomeHeap (connectOnce h model1 prop1 model2 prop2 deleteOnRemove) r)
    = _Item (h r).
Proof.
  unfold connectOnce.
  destruct (negb (declared (Meta (h model1) prop1))); [done|].
  destruct (isGiven prop2 && negb (declared (Meta (h model2) prop2))); [done|].
  destruct (isArray2 h model2 prop2 && deleteOnRemove); [done|].
  pose proof (trackRefs_fields h (_Item (h model1)) [prop1]
                (connectAddActions (isArray2 h model2 prop2) (isGiven prop2) prop2)
                (connectRemoveActions deleteOnRemove (isGiven prop2) prop2)) as Hf.
  destruct (trackRefs h _ _ _ _) as [h1|err h1]; simpl in *; [|apply Hf].
  destruct (isArrayProp h model1 prop1 && negb (has_arrayType (Meta (h1 model1) prop1)));
    simpl; [apply Hf|].
  unfold update. destruct (decide (model1 = r)) as [->|]; simpl; apply Hf.
Qed.

Lemma setRefModel_Meta isArray prop target o q :
  Meta (setRefModel isArray prop target o) q =
    if decide (prop = q)
    then if isArray
         then MkPropMeta (declared (Meta o prop)) (type (Meta o prop))
                (refModel (Meta o prop)) (has_arrayType (Meta o prop)) target
         else MkPropMeta (declared (Meta o prop)) (type (Meta o prop)) target
                (has_arrayType (Meta o prop)) (arrayType_refModel (Meta o prop))
    else Meta o q.
Proof. done. Qed.

Lemma connectOnce_Meta h model1 prop1 model2 prop2 deleteOnRemove h2 :
  connectOnce h model1 prop1 model2 prop2 deleteOnRemove = Ok h2 →
  type (Meta (h2 model1) prop1) = type (Meta (h model1) prop1) ∧
  resolveRefModel (Meta (h2 model1) prop1) = model2 ∧
  (∀ r q, ¬ (r = model1 ∧ q = prop1) → Meta (h2 r) q = Meta (h r) q).
Proof.
  intros H. apply connectOnce_Ok_inv in H as (h1 & Htrack & ->).
  assert (∀ r, Meta (h1 r) = Meta (h r)) as HMeta.
  { intros r. pose proof (trackRefs_fields h (_Item (h model1)) [prop1]
      (connectAddActions (isArray2 h model2 prop2) (isGiven prop2) prop2)
      (connectRemoveActions deleteOnRemove (isGiven prop2) prop2) r) as [Hf _].
    by rewrite Htrack in Hf. }
  rewrite update_eq, setRefModel_Meta, decide_True, HMeta by done.
  unfold isArrayProp, resolveRefModel. split; [|split].
  - by destruct (String.eqb (type (Meta (h model1) prop1)) "array").
  - destruct (String.eqb (type (Meta (h model1) prop1)) "array") eqn:Harr; simpl;
      by rewrite Harr.
  - intros r q Hne. unfold update. destruct (decide (model1 = r)) as [<-|].
    + rewrite setRefModel_Meta, decide_False; [by rewrite HMeta|].
      intros <-. by apply Hne.
    + by rewrite HMeta.
Qed.

(** X13.  After a [connect] that does not raise, the descriptor of [prop1] on
    [model1] keeps its type and resolves to [model2], so that the delta engine
    runs the actions of [prop1] against records of [model2]; when the
    reciprocal side is registered too, the descriptor of [prop2] on [model2]
    resolves to [model1]. *)
Theorem connect_sets_reference_model
    (h : heap) (model1 : ref) (prop1 : string) (model2 : ref) (prop2 : string)
    (deleteOnRemove noRecurse : bool) (h' : heap) :
  connect h model1 prop1 model2 prop2 deleteOnRemove noRecurse = Ok h' →
  type (Meta (h' model1) prop1) = type (Meta (h model1) prop1) ∧
  resolveRefModel (Meta (h' model1) prop1) = model2 ∧
  (noRecurse = false → isGiven prop2 = true →
   resolveRefModel (Meta (h' model2) prop2) = model1) ∧
  (∀ store item newState isUpdate ph id a t,
     item_Meta item = Meta (h' model1) →
     EvRun ph prop1 id a t ∈ effects (onRefsUpdateItem store item newState isUpdate) →
     keyModel (targetKey t) = model2).
Proof.
  intros H.
  assert (type (Meta (h' model1) prop1) = type (Meta (h model1) prop1) ∧
          resolveRefModel (Meta (h' model1) prop1) = model2 ∧
          (noRecurse = false → isGiven prop2 = true →
           resolveRefModel (Meta (h' model2) prop2) = model1)) as (Ht & Hr & Hrec).
  { unfold connect in H.
    destruct (connectOnce h model1 prop1 model2 prop2 deleteOnRemove)
      as [h2|err h2] eqn:H1; [|done].
    apply connectOnce_Meta in H1 as (Ht1 & Hr1 & Hf1).
    destruct (negb noRecurse && isGiven prop2) eqn:Hrec.
    - apply connectOnce_Meta in H as (Ht2 & Hr2 & Hf2).
      destruct (decide (model1 = model2 ∧ prop1 = prop2)) as [[-> ->]|Hne].
      + split; [congruence|]. split; [done|]. done.
      + rewrite (Hf2 model1 prop1) by (intros [-> ->]; by apply Hne). done.
    - injection H as <-. do 2 (split; [done|]).
      intros -> Hg. by rewrite Hg in Hrec. }
  do 3 (split; [done|]).
  intros store item newState isUpdate ph id a t HMeta Hrun.
  apply run_inv in Hrun as (rp & _ & _ & _ & -> & _).
  unfold targetOf. simpl. by rewrite HMeta.
Qed.

Lemma connect_sets_reference_model_witness :
  resolveRefModel (Meta (outcomeHeap (connect exHeap "A" "bId" "B" "aId" false false) "A")
                     "bId") = "B".
Proof.
  apply (connect_sets_reference_model exHeap "A" "bId" "B" "aId" false false
           (outcomeHeap (connect exHeap "A" "bId" "B" "aId" false false))).
  vm_compute. reflexivity.
Defined.

(** X14.  A two-way [connect] between two declared properties of models
    that share one item class, for instance of one model, raises a
    [TypeError] when the class had no registry: the reciprocal registration
    finds a registry that does not track [prop2] (or, before it, the write of
    line 218 finds no [arrayType]).  The first side stays registered. *)
Theorem connect_shared_class_raises
    (h : heap) (model1 : ref) (prop1 : string) (model2 : ref) (prop2 : string)
    (deleteOnRemove : bool) :
  _Item (h model1) = _Item (h model2) →
  prototype_refProps (h (_Item (h model1))) = None →
  prop1 ≠ prop2 → isGiven prop2 = true →
  declared (Meta (h model1) prop1) = true →
  declared (Meta (h model2) prop2) = true →
  isArray2 h model2 prop2 && deleteOnRemove = false →
  ∃ h2 rp,
    connect h model1 prop1 model2 prop2 deleteOnRemove false = Throw TypeError h2 ∧
    prototype_refProps (h2 (_Item (h model1))) = Some rp ∧
    props rp = [prop1] ∧ is_Some (AddActions rp !! prop1).
Proof.
  intros Hshared Hfresh Hne Hgiven Hd1 Hd2 Hguard.
  set (rp := MkRefProps [prop1]
               (assign ∅ (map (λ p, (p, connectAddActions (isArray2 h model2 prop2)
                                          (isGiven prop2) prop2)) [prop1]))
               (assign ∅ (map (λ p, (p, connectAddActions (isArray2 h model2 prop2)
                                          (isGiven prop2) prop2)) [prop1]))).
  assert (is_Some (AddActions rp !! prop1)) as Hsome.
  { unfold rp. cbn [AddActions]. rewrite lookup_assign, decide_True; [done|].
    apply list_elem_of_here. }
  destruct (connectOnce h model1 prop1 model2 prop2 deleteOnRemove) as [h2|err h2] eqn:H1.
  - pose proof (connectOnce_Item h model1 prop1 model2 prop2 deleteOnRemove model2) as HItem.
    pose proof H1 as H1'.
    apply connectOnce_Ok_inv in H1' as (h1 & Htrack & Hh2).
    rewrite trackRefs_fresh in Htrack by done. injection Htrack as <-.
    rewrite H1 in HItem. simpl in HItem.
    assert (prototype_refProps (h2 (_Item (h model1))) = Some rp) as Hrp.
    { rewrite Hh2, prototype_refProps_setRefModel. by rewrite update_eq. }
    exists h2, rp. split; [|done].
    unfold connect. rewrite H1, Hgiven. simpl. unfold connectOnce.
    destruct (negb (declared (Meta (h2 model2) prop2))); [done|].
    destruct (isGiven prop1 && negb (declared (Meta (h2 model1) prop1))); [done|].
    rewrite andb_false_r, HItem, <- Hshared.
    rewrite (trackRefs_missing _ _ _ _ _ rp prop2); [done|done|apply list_elem_of_here|].
    left. unfold rp. cbn [AddActions]. rewrite lookup_assign, decide_False; [done|].
    intros Hin%list_elem_of_singleton. by apply Hne.
  - unfold connect. rewrite H1.
    unfold connectOnce in H1. rewrite Hd1, Hgiven, Hd2, Hguard in H1. simpl in H1.
    rewrite trackRefs_fresh in H1 by done.
    destruct (isArrayProp h model1 prop1 && _) in H1; [|done].
    injection H1 as <- <-. eexists _, rp. split; [done|].
    rewrite update_eq. split; [|done]. unfold rp. rewrite Hgiven. reflexivity.
Qed.

Lemma connect_shared_class_raises_witness :
  ∃ h2 rp,
    connect exHeap "A" "parentId" "A" "childIds" false false = Throw TypeError h2 ∧
    prototype_refProps (h2 (_Item (exHeap "A"))) = Some rp ∧
    props rp = ["parentId"] ∧ is_Some (AddActions rp !! "parentId").
Proof.
  apply (connect_shared_class_raises exHeap "A" "parentId" "A" "childIds" false).
  - reflexivity.
  - reflexivity.
  - discriminate.
  - reflexivity.
  - reflexivity.
  - reflexivity.
  - reflexivity.
Defined.

Lemma heapOk_connectOnce h model1 prop1 model2 prop2 deleteOnRemove :
  heapOk h →
  heapOk (outcomeHeap (connectOnce h model1 prop1 model2 prop2 deleteOnRemove)).
Proof.
  intros Hh. unfold connectOnce.
  destruct (negb (declared (Meta (h model1) prop1))); [done|].
  destruct (isGiven prop2 && negb (declared (Meta (h model2) prop2))); [done|].
  destruct (isArray2 h model2 prop2 && deleteOnRemove); [done|].
  pose proof (heapOk_trackRefs h (_Item (h model1)) [prop1]
                (connectAddActions (isArray2 h model2 prop2) (isGiven prop2) prop2)
                (connectRemoveActions deleteOnRemove (isGiven prop2) prop2) Hh) as Hok.
  destruct (trackRefs h _ _ _ _) as [h1|err h1]; simpl in *; [|done].
  destruct (isArrayProp h model1 prop1 && negb (has_arrayType (Meta (h1 model1) prop1)));
    [done|].
  apply heapOk_update; [done|]. intros rp. simpl. apply Hok.
Qed.

Lemma heapOk_connect h model1 prop1 model2 prop2 deleteOnRemove noRecurse :
  heapOk h →
  heapOk (outcomeHeap (connect h model1 prop1 model2 prop2 deleteOnRemove noRecurse)).
Proof.
  intros Hh. unfold connect.
  pose proof (heapOk_connectOnce h model1 prop1 model2 prop2 deleteOnRemove Hh) as H1.
  destruct (connectOnce h model1 prop1 model2 prop2 deleteOnRemove) as [h2|err h2];
    simpl in *; [|done].
  destruct (negb noRecurse && isGiven prop2); [|done].
  by apply heapOk_connectOnce.
Qed.

Lemma heapOk_belongsToMany h model1 prop1 model2 prop2 deleteOnRemove :
  heapOk h →
  heapOk (outcomeHeap (belongsToMany h model1 prop1 model2 prop2 deleteOnRemove)).
Proof.
  intros Hh. unfold belongsToMany.
  destruct (negb (has_prototype (h model1))); [done|].
  pose proof (heapOk_trackRefs h model1 [prop1] [SetIDAction prop2]
                [if deleteOnRemove then DeleteItemAction else RemoveIDAction prop2] Hh)
    as Hok.
  destruct (trackRefs h _ _ _ _) as [h1|err h1]; simpl in *; [|done].
  destruct (negb (declared (Meta (h1 model2) prop2))); [done|].
  apply heapOk_update; [done|]. intros rp. simpl. apply Hok.
Qed.

(** X15.  [connect] and [belongsToMany] keep every registry of the heap well
    formed, whether they return or raise. *)
Theorem builders_keep_registries_ok
    (h : heap) (model1 : ref) (prop1 : string) (model2 : ref) (prop2 : string)
    (deleteOnRemove noRecurse : bool) :
  heapOk h →
  heapOk (outcomeHeap (connect h model1 prop1 model2 prop2 deleteOnRemove noRecurse)) ∧
  heapOk (outcomeHeap (belongsToMany h model1 prop1 model2 prop2 deleteOnRemove)).
Proof. intros Hh. split; [by apply heapOk_connect | by apply heapOk_belongsToMany]. Qed.

Lemma builders_keep_registries_ok_witness :
  heapOk (outcomeHeap (connect exHeap "A" "bId" "B" "aIds" false false)) ∧
  heapOk (outcomeHeap (belongsToMany exHeap "A" "bId" "B" "aIds" false)).
Proof.
  apply (builders_keep_registries_ok exHeap "A" "bId" "B" "aIds" false false).
  intros r rp H. discriminate H.
Defined.

Lemma connectOnce_frame h model1 prop1 model2 prop2 deleteOnRemove r :
  r ≠ model1 → r ≠ _Item (h model1) →
  outcomeHeap (connectOnce h model1 prop1 model2 prop2 deleteOnRemove) r = h r.
Proof.
  intros Hm Hc. unfold connectOnce.
  destruct (negb (declared (Meta (h model1) prop1))); [done|].
  destruct (isGiven prop2 && negb (declared (Meta (h model2) prop2))); [done|].
  destruct (isArray2 h model2 prop2 && deleteOnRemove); [done|].
  pose proof (trackRefs_outcome_frame h (_Item (h model1)) [prop1]
                (connectAddActions (isArray2 h model2 prop2) (isGiven prop2) prop2)
                (connectRemoveActions deleteOnRemove (isGiven prop2) prop2) r Hc) as Hf.
  destruct (trackRefs h _ _ _ _) as [h1|err h1]; simpl in *; [|done].
  destruct (isArrayProp h model1 prop1 && negb (has_arrayType (Meta (h1 model1) prop1)));
    simpl; [done|].
  by rewrite update_ne.
Qed.

(** X16.  [connect] touches nothing but the two models and their item
    classes: every other object of the heap is left as it was, whether
    [connect] returns or raises. *)
Theorem connect_frame
    (h : heap) (model1 : ref) (prop1 : string) (model2 : ref) (prop2 : string)
    (deleteOnRemove noRecurse : bool) (r : ref) :
  r ≠ model1 → r ≠ model2 → r ≠ _Item (h model1) → r ≠ _Item (h model2) →
  outcomeHeap (connect h model1 prop1 model2 prop2 deleteOnRemove noRecurse) r = h r.
Proof.
  intros Hm1 Hm2 Hc1 Hc2. unfold connect.
  pose proof (connectOnce_frame h model1 prop1 model2 prop2 deleteOnRemove r Hm1 Hc1) as H1.
  pose proof (connectOnce_Item h model1 prop1 model2 prop2 deleteOnRemove model2) as HItem.
  destruct (connectOnce h model1 prop1 model2 prop2 deleteOnRemove) as [h2|err h2];
    simpl in *; [|done].
  destruct (negb noRecurse && isGiven prop2); [|done].
  rewrite connectOnce_frame; [done|done|]. by rewrite HItem.
Qed.

Lemma connect_frame_witness :
  outcomeHeap (connect exHeap "A" "bId" "B" "aId" false false) "C" = exHeap "C".
Proof.
  apply (connect_frame exHeap "A" "bId" "B" "aId" false false "C"); discriminate.
Defined.

(** X17.  A [belongsToMany] that does not raise sets the [refModel] of
    [prop2] on [model2] to [model1] and leaves every other descriptor as it
    was: it does not set the reference model of [prop1] on [model1], and when
    [prop2] is array-typed the model its elements resolve to is unchanged. *)
Theorem belongsToMany_Meta
    (h : heap) (model1 : ref) (prop1 : string) (model2 : ref) (prop2 : string)
    (deleteOnRemove : bool) (h' : heap) :
  belongsToMany h model1 prop1 model2 prop2 deleteOnRemove = Ok h' →
  refModel (Meta (h' model2) prop2) = model1 ∧
  type (Meta (h' model2) prop2) = type (Meta (h model2) prop2) ∧
  arrayType_refModel (Meta (h' model2) prop2) = arrayType_refModel (Meta (h model2) prop2) ∧
  (∀ r q, ¬ (r = model2 ∧ q = prop2) → Meta (h' r) q = Meta (h r) q) ∧
  (type (Meta (h model2) prop2) = "array" →
   resolveRefModel (Meta (h' model2) prop2) = resolveRefModel (Meta (h model2) prop2)).
Proof.
  unfold belongsToMany. intros H.
  destruct (negb (has_prototype (h model1))); [done|].
  pose proof (λ r, trackRefs_fields h model1 [prop1] [SetIDAction prop2]
                [if deleteOnRemove then DeleteItemAction else RemoveIDAction prop2] r)
    as Hf.
  destruct (trackRefs h _ _ _ _) as [h1|err h1]; [|done]. simpl in Hf.
  destruct (negb (declared (Meta (h1 model2) prop2))); [done|].
  injection H as <-.
  assert (∀ r, Meta (h1 r) = Meta (h r)) as HMeta by (intros r; apply Hf).
  rewrite update_eq, setRefModel_Meta, decide_True, HMeta by done. simpl.
  do 3 (split; [done|]). split.
  - intros r q Hne. unfold update. destruct (decide (model2 = r)) as [<-|].
    + rewrite setRefModel_Meta, decide_False; [by rewrite HMeta|].
      intros <-. by apply Hne.
    + by rewrite HMeta.
  - intros Harr. unfold resolveRefModel. simpl. by rewrite Harr.
Qed.

Lemma belongsToMany_Meta_witness :
  refModel (Meta (exHeapBelongs "B") "aId") = "AItem".
Proof.
  apply (belongsToMany_Meta exHeapTracked "AItem" "bIds" "B" "aId" false exHeapBelongs).
  vm_compute. reflexivity.
Defined.

(** ** What the builders raise, and what they leave for the engine *)

(** C5 fails on the code.  [belongsToMany] hands [model1] itself to
    [trackRefs]: called on the model [A], as its signature asks, it raises a
    [TypeError] at line 146 and registers nothing, neither on [A] nor on its
    item class.  Called on the item class [AItem], the only call that
    returns, it registers [SetIDAction] as add-action, but the remove-action
    is [RemoveIDAction "aId"] and not [UnsetIDAction "aId"] when the class
    tracks [bIds] already, and on a class without registry, with
    [deleteOnRemove], the remove-actions are [[SetIDAction "aId"]] and not
    [[DeleteItemAction]]. *)
Theorem belongsToMany_diverges :
  (has_prototype (exHeap "A") = false ∧
   belongsToMany exHeap "A" "bIds" "B" "aId" false = Throw TypeError exHeap ∧
   prototype_refProps (exHeap "A") = None ∧
   prototype_refProps (exHeap (_Item (exHeap "A"))) = None) ∧
  (∃ h' rp,
     prototype_refProps (exHeapTracked "AItem") = Some exTracked ∧
     belongsToMany exHeapTracked "AItem" "bIds" "B" "aId" false = Ok h' ∧
     prototype_refProps (h' "AItem") = Some rp ∧
     AddActions rp !! "bIds" = Some [SetIDAction "aId"] ∧
     RemoveActions rp !! "bIds" = Some [RemoveIDAction "aId"] ∧
     RemoveActions rp !! "bIds" ≠ Some [UnsetIDAction "aId"]) ∧
  (∃ h' rp,
     prototype_refProps (exHeap "AItem") = None ∧
     belongsToMany exHeap "AItem" "bIds" "B" "aId" true = Ok h' ∧
     prototype_refProps (h' "AItem") = Some rp ∧
     AddActions rp !! "bIds" = Some [SetIDAction "aId"] ∧
     RemoveActions rp !! "bIds" = Some [SetIDAction "aId"] ∧
     RemoveActions rp !! "bIds" ≠ Some [DeleteItemAction]).
Proof.
  split; [|split].
  - split; [done|]. split; [done|]. split; done.
  - eexists _, _. split; [vm_compute; reflexivity|].
    split; [vm_compute; reflexivity|].
    split; [vm_compute; reflexivity|].
    split; [vm_compute; reflexivity|].
    split; [vm_compute; reflexivity|].
    vm_compute. discriminate.
  - eexists _, _. split; [done|].
    split; [vm_compute; reflexivity|].
    split; [vm_compute; reflexivity|].
    split; [vm_compute; reflexivity|].
    split; [vm_compute; reflexivity|].
    vm_compute. discriminate.
Qed.

Lemma connectOnce_throws_InvalidParameters h model1 prop1 model2 prop2 deleteOnRemove h' :
  connectOnce h model1 prop1 model2 prop2 deleteOnRemove = Throw InvalidParameters h' ↔
    declared (Meta (h model1) prop1) = true ∧ isGiven prop2 = true ∧
    declared (Meta (h model2) prop2) = true ∧ isArrayProp h model2 prop2 = true ∧
    deleteOnRemove = true ∧ h' = h.
Proof.
  unfold connectOnce, isArray2.
  destruct (declared (Meta (h model1) prop1)); simpl;
    [|split; [done | by intros [? _]]].
  destruct (isGiven prop2); simpl.
  - destruct (declared (Meta (h model2) prop2)); simpl;
      [|split; [done | by intros (_ & _ & ? & _)]].
    destruct (isArrayProp h model2 prop2); simpl.
    + destruct deleteOnRemove.
      * split; [by intros [= <-] | by intros (_ & _ & _ & _ & _ & ->)].
      * destruct (trackRefs h _ _ _ _) as [h1|err h1] eqn:Htrack.
        -- destruct (isArrayProp h model1 prop1 && _);
             (split; [done | by intros (_ & _ & _ & _ & ? & _)]).
        -- apply trackRefs_throws in Htrack as [-> _].
           split; [done | by intros (_ & _ & _ & _ & ? & _)].
    + destruct (trackRefs h _ _ _ _) as [h1|err h1] eqn:Htrack.
      * destruct (isArrayProp h model1 prop1 && _);
          (split; [done | by intros (_ & _ & _ & ? & _)]).
      * apply trackRefs_throws in Htrack as [-> _].
        split; [done | by intros (_ & _ & _ & ? & _)].
  - destruct (trackRefs h _ _ _ _) as [h1|err h1] eqn:Htrack.
    + destruct (isArrayProp h model1 prop1 && _);
        (split; [done | by intros (_ & ? & _)]).
    + apply trackRefs_throws in Htrack as [-> _].
      split; [done | by intros (_ & ? & _)].
Qed.

(** What a property without descriptor makes of [connectOnce]. *)
Lemma connectOnce_undeclared h model1 prop1 model2 prop2 deleteOnRemove :
  declared (Meta (h model1) prop1) = false ∨
  (isGiven prop2 = true ∧ declared (Meta (h model2) prop2) = false) →
  connectOnce h model1 prop1 model2 prop2 deleteOnRemove = Throw TypeError h.
Proof.
  unfold connectOnce. intros [H|[Hg H]].
  - by rewrite H.
  - destruct (negb (declared (Meta (h model1) prop1))); [done|].
    by rewrite Hg, H.
Qed.

Lemma dereference_resolveRefModel meta m :
  dereference meta = Some m → resolveRefModel meta = m.
Proof.
  unfold dereference, resolveRefModel.
  destruct (negb (declared meta)); [done|].
  destruct (String.eqb (type meta) "array"); [|congruence].
  destruct (has_arrayType meta); congruence.
Qed.

Lemma connectOnce_dereference h model1 prop1 model2 prop2 deleteOnRemove h2 :
  connectOnce h model1 prop1 model2 prop2 deleteOnRemove = Ok h2 →
  dereference (Meta (h2 model1) prop1) = Some model2.
Proof.
  intros H.
  pose proof (connectOnce_Ok_checks _ _ _ _ _ _ _ H) as (Hd & _ & _ & Harr).
  apply connectOnce_Ok_inv in H as (h1 & Htrack & ->).
  assert (Meta (h1 model1) = Meta (h model1)) as HMeta.
  { pose proof (trackRefs_fields h (_Item (h model1)) [prop1]
      (connectAddActions (isArray2 h model2 prop2) (isGiven prop2) prop2)
      (connectRemoveActions deleteOnRemove (isGiven prop2) prop2) model1) as [Hf _].
    by rewrite Htrack in Hf. }
  rewrite update_eq, setRefModel_Meta, decide_True, HMeta by done.
  unfold dereference. unfold isArrayProp in *.
  destruct (String.eqb (type (Meta (h model1) prop1)) "array") eqn:Ht; simpl;
    rewrite Hd, Ht; simpl; [|done].
  by rewrite Harr.
Qed.

Lemma trackRefs_tracks_new h ItemClass ps addActions removeActions h1 e :
  trackRefs h ItemClass ps addActions removeActions = Ok h1 → e ∈ ps →
  tracks h1 ItemClass e.
Proof.
  intros H He.
  apply trackRefs_Ok_cases in H as [[_ ->]|(prev & _ & _ & ->)];
    unfold tracks; rewrite update_eq; eexists; (split; [done|]); simpl;
    rewrite !lookup_assign, !decide_True by done; (split; [|done]).
  - done.
  - apply elem_of_app. by right.
Qed.

Lemma trackRefs_tracks_keep h ItemClass ps addActions removeActions h1 C e :
  trackRefs h ItemClass ps addActions removeActions = Ok h1 →
  tracks h C e → tracks h1 C e.
Proof.
  intros H (rp & Hrp & He & Ha & Hr).
  destruct (decide (C = ItemClass)) as [->|Hne].
  - destruct (decide (e ∈ ps)) as [Hin|Hnin];
      [by apply (trackRefs_tracks_new _ _ _ _ _ _ _ H)|].
    apply trackRefs_Ok_cases in H as [[Hnone _]|(prev & Hprev & _ & ->)];
      [congruence|].
    rewrite Hrp in Hprev. injection Hprev as <-.
    unfold tracks. rewrite update_eq. eexists. split; [done|]. simpl.
    rewrite !lookup_assign, !decide_False by done. split; [|done].
    apply elem_of_app. by left.
  - pose proof (trackRefs_outcome_frame h ItemClass ps addActions removeActions C Hne)
      as Hf.
    rewrite H in Hf. simpl in Hf. exists rp. by rewrite Hf.
Qed.

Lemma connectOnce_tracks_keep h model1 prop1 model2 prop2 deleteOnRemove h2 C e :
  connectOnce h model1 prop1 model2 prop2 deleteOnRemove = Ok h2 →
  tracks h C e → tracks h2 C e.
Proof.
  intros H Ht. apply connectOnce_Ok_inv in H as (h1 & Htrack & ->).
  pose proof (trackRefs_tracks_keep _ _ _ _ _ _ _ _ Htrack Ht) as (rp & Hrp & Hrest).
  exists rp. by rewrite prototype_refProps_setRefModel.
Qed.

Lemma connectOnce_tracks_new h model1 prop1 model2 prop2 deleteOnRemove h2 :
  connectOnce h model1 prop1 model2 prop2 deleteOnRemove = Ok h2 →
  tracks h2 (_Item (h model1)) prop1.
Proof.
  intros H. apply connectOnce_Ok_inv in H as (h1 & Htrack & ->).
  pose proof (trackRefs_tracks_new _ _ _ _ _ _ prop1 Htrack (list_elem_of_here _ _))
    as (rp & Hrp & Hrest).
  exists rp. by rewrite prototype_refProps_setRefModel.
Qed.

(** [trackRefs] does not look at the descriptors: a property without
    descriptor is registered, and the missing descriptor is found when the
    engine dereferences it. *)
Lemma trackRefs_ignores_Meta :
  ∃ h1, trackRefs exHeapArray "AItem" ["nope"] [] [] = Ok h1 ∧
        tracks h1 "AItem" "nope" ∧
        dereference (Meta (h1 "A") "nope") = None.
Proof.
  eexists. split; [by apply trackRefs_fresh|]. split; [|done].
  unfold tracks. rewrite update_eq. eexists. split; [done|]. simpl.
  rewrite !lookup_insert_eq. split; [apply list_elem_of_here|]. by split.
Qed.

(** C7, as amended.  [connect] raises [InvalidParameters] exactly when
    [prop1] has a descriptor on [model1], the reciprocal property is given,
    has a descriptor on [model2] that is array-typed, and [deleteOnRemove] is
    set; it then has registered nothing, the heap being the one it was called
    on.  A property without descriptor makes it raise a [TypeError] instead,
    before the guard is reached and with nothing registered either.  After a
    [connect] that returns, the item class of [model1] tracks [prop1] with
    both action lists, and the dereferences of lines 31-33 and 44-45 succeed
    for [prop1] and give [model2] (and [model1] for [prop2], when the
    reciprocal side is registered): no error of the relation's declaration is
    left for the engine to find.  The delta engine never raises
    [InvalidParameters]. *)
Theorem connect_InvalidParameters
    (h : heap) (model1 : ref) (prop1 : string) (model2 : ref) (prop2 : string)
    (deleteOnRemove noRecurse : bool) :
  (∀ h', connect h model1 prop1 model2 prop2 deleteOnRemove noRecurse
           = Throw InvalidParameters h' ↔
         (declared (Meta (h model1) prop1) = true ∧ isGiven prop2 = true ∧
          declared (Meta (h model2) prop2) = true ∧
          isArrayProp h model2 prop2 = true ∧ deleteOnRemove = true ∧ h' = h)) ∧
  (declared (Meta (h model1) prop1) = false ∨
   (isGiven prop2 = true ∧ declared (Meta (h model2) prop2) = false) →
   connect h model1 prop1 model2 prop2 deleteOnRemove noRecurse = Throw TypeError h) ∧
  (∀ h', connect h model1 prop1 model2 prop2 deleteOnRemove noRecurse = Ok h' →
     tracks h' (_Item (h model1)) prop1 ∧
     dereference (Meta (h' model1) prop1) = Some model2 ∧
     (noRecurse = false → isGiven prop2 = true →
      tracks h' (_Item (h model2)) prop2 ∧
      dereference (Meta (h' model2) prop2) = Some model1)) ∧
  (∀ store item newState isUpdate,
     EvThrow InvalidParameters ∉ effects (onRefsUpdateItem store item newState isUpdate)).
Proof.
  split; [|split; [|split]].
  - intros h'.
    rewrite <- connectOnce_throws_InvalidParameters with (model1 := model1) (prop1 := prop1).
    unfold connect.
    destruct (connectOnce h model1 prop1 model2 prop2 deleteOnRemove) as [h2|err h2] eqn:H1;
      [|done].
    split; [|done]. destruct (negb noRecurse && isGiven prop2); [|done].
    intros H. by apply connectOnce_throws_InvalidParameters in H as (_ & _ & _ & _ & ? & _).
  - intros H. unfold connect.
    by rewrite (connectOnce_undeclared _ _ _ _ _ _ H).
  - intros h' H. unfold connect in H.
    destruct (connectOnce h model1 prop1 model2 prop2 deleteOnRemove) as [h2|err h2] eqn:H1;
      [|done].
    pose proof (connectOnce_tracks_new _ _ _ _ _ _ _ H1) as Ht1.
    pose proof (connectOnce_dereference _ _ _ _ _ _ _ H1) as Hd1.
    pose proof (connectOnce_Item h model1 prop1 model2 prop2 deleteOnRemove model2) as HItem.
    rewrite H1 in HItem. simpl in HItem.
    destruct (negb noRecurse && isGiven prop2) eqn:Hrec.
    + pose proof (connectOnce_tracks_new _ _ _ _ _ _ _ H) as Ht2.
      pose proof (connectOnce_dereference _ _ _ _ _ _ _ H) as Hd2.
      pose proof (connectOnce_tracks_keep _ _ _ _ _ _ _ _ _ H Ht1) as Ht1'.
      rewrite HItem in Ht2.
      split; [done|]. split; [|done].
      destruct (decide (model1 = model2 ∧ prop1 = prop2)) as [[-> ->]|Hne]; [done|].
      apply connectOnce_Meta in H as (_ & _ & Hf).
      rewrite (Hf model1 prop1); [done|]. intros [-> ->]. by apply Hne.
    + injection H as <-. split; [done|]. split; [done|].
      intros -> Hg. by rewrite Hg in Hrec.
  - intros store item newState isUpdate H. by apply throw_is_TypeError in H.
Qed.

(** The claim of C7 as it was made fails: with [prop1] a property without
    descriptor, an array-typed reciprocal property and [deleteOnRemove],
    [connect] raises the [TypeError] of line 195 and not
    [InvalidParameters]. *)
Lemma connect_undeclared_property_counterexample :
  ¬ (∀ (h : heap) (model1 : ref) (prop1 : string) (model2 : ref) (prop2 : string)
       (deleteOnRemove noRecurse : bool) (h' : heap),
       connect h model1 prop1 model2 prop2 deleteOnRemove noRecurse
         = Throw InvalidParameters h' ↔
       (isGiven prop2 && isArrayProp h model2 prop2 && deleteOnRemove = true ∧ h' = h)).
Proof.
  intros H.
  destruct (H exHeapArray "A" "nope" "B" "aIds" true false exHeapArray) as [_ Hthrow].
  specialize (Hthrow (conj eq_refl eq_refl)).
  vm_compute in Hthrow. discriminate Hthrow.
Qed.

(** ** The search index adapter *)

Lemma elem_of_uniqFrom (seen l : list string) (t : string) :
  t ∈ uniqFrom seen l ↔ t ∈ l ∧ t ∉ seen.
Proof.
  revert seen. induction l as [|x l IH]; intros seen; simpl.
  - rewrite elem_of_nil. tauto.
  - destruct (decide (x ∈ seen)) as [Hx|Hx].
    + rewrite IH, elem_of_cons. split; [tauto|].
      intros [[->|?] ?]; [done | by split].
    + rewrite !elem_of_cons, IH, elem_of_cons. split.
      * intros [->|[? ?]]; [by split; [left|] | split; [by right | tauto]].
      * intros [[->|?] ?]; [by left|].
        destruct (decide (t = x)) as [->|]; [by left | right; tauto].
Qed.

Lemma NoDup_uniqFrom (seen l : list string) : NoDup (uniqFrom seen l).
Proof.
  revert seen. induction l as [|x l IH]; intros seen; simpl; [constructor|].
  destruct (decide (x ∈ seen)); [apply IH|].
  constructor; [|apply IH]. rewrite elem_of_uniqFrom, elem_of_cons. tauto.
Qed.

Lemma elem_of_filter_uniq (l : list string) (t : string) : t ∈ filter_uniq l ↔ t ∈ l.
Proof.
  unfold filter_uniq. rewrite elem_of_uniqFrom, elem_of_nil. tauto.
Qed.

Lemma elem_of_createIndexEntry parseQuery ps item state prev t :
  t ∈ tokens (createIndexEntry parseQuery ps item state prev) ↔
    t ∈ concat (parseQuery (indexText ps state)) ∨ ∃ p, prev = Some p ∧ t ∈ tokens p.
Proof.
  unfold createIndexEntry. simpl. rewrite elem_of_filter_uniq, elem_of_app.
  destruct prev as [p|].
  - split; (intros [?|H]; [by left | right]).
    + by exists p.
    + by destruct H as (p' & [= <-] & ?).
  - rewrite elem_of_nil. split; [intros [?|[]]; by left|].
    intros [?|(p & ? & _)]; [by left | done].
Qed.

(** X18.  [updateInTxn] does nothing exactly when the item has no search
    registry or none of the indexed properties is reported as updated; the
    candidate state plays no part in that decision. *)
Theorem updateInTxn_nothing_iff (item : SearchItem) (newState : gmap string value) :
  updateInTxn item newState = None ↔
    sitem_searchIndexProps item = None ∨
    ∃ sp, sitem_searchIndexProps item = Some sp ∧
          ∀ e, e ∈ sprops sp → sitem_didUpdate item e = false.
Proof.
  unfold updateInTxn. destruct (sitem_searchIndexProps item) as [sp|].
  - destruct (existsb (sitem_didUpdate item) (sprops sp)) eqn:Hex.
    + split; [done|]. intros [?|(sp' & [= <-] & Hall)]; [done|].
      apply existsb_exists in Hex as (e & He & Hupd).
      apply list_elem_of_In in He. by rewrite (Hall e He) in Hupd.
    + split; [|done]. intros _. right. exists sp. split; [done|]. intros e He.
      destruct (sitem_didUpdate item e) eqn:Hupd; [|done].
      assert (existsb (sitem_didUpdate item) (sprops sp) = true) as Hex'; [|congruence].
      apply existsb_exists. exists e. split; [by apply list_elem_of_In | done].
  - split; [by left | done].
Qed.

(** X19.  The tokens of [createIndexEntry] are the tokens of the text of the
    given properties together with the tokens of the previous entry, when
    there is one, each of them once: an entry never loses a token of the
    previous one. *)
Theorem createIndexEntry_tokens
    (parseQuery : string → list (list string)) (ps : list string) (item : string)
    (state : gmap string value) (prev : option IndexEntry) :
  NoDup (tokens (createIndexEntry parseQuery ps item state prev)) ∧
  (∀ t, t ∈ tokens (createIndexEntry parseQuery ps item state prev) ↔
        t ∈ concat (parseQuery (indexText ps state)) ∨
        ∃ p, prev = Some p ∧ t ∈ tokens p).
Proof.
  split; [apply NoDup_uniqFrom|]. intros t. apply elem_of_createIndexEntry.
Qed.

Lemma indexForSearch_sprops prev ps createIndex :
  sprops (indexForSearch prev ps createIndex).1 = default [] (sprops <$> prev) ++ ps.
Proof. by destruct prev. Qed.

Lemma indexForSearch_indexer prev ps createIndex item state :
  indexer (indexForSearch prev ps createIndex).1 item state =
    createIndex ps item state ((λ p, indexer p item state) <$> prev).
Proof. done. Qed.

Lemma declareAll_snoc parseQuery decls ps :
  declareAll parseQuery (decls ++ [ps]) =
    Some (indexForSearch (declareAll parseQuery decls) ps (createIndexEntry parseQuery)).1.
Proof. unfold declareAll. by rewrite foldl_app. Qed.

Lemma declareAll_spec parseQuery decls :
  match declareAll parseQuery decls with
  | None => decls = []
  | Some sp =>
      decls ≠ [] ∧ sprops sp = concat decls ∧
      ∀ item state t,
        t ∈ tokens (indexer sp item state) ↔
        ∃ ps, ps ∈ decls ∧ t ∈ concat (parseQuery (indexText ps state))
  end.
Proof.
  induction decls as [|ps decls IH] using rev_ind; [done|].
  rewrite declareAll_snoc. lazy beta iota.
  split; [by destruct decls|]. rewrite indexForSearch_sprops, concat_app.
  destruct (declareAll parseQuery decls) as [sp|].
  - destruct IH as (_ & Hprops & Htok). split.
    + simpl. by rewrite Hprops, app_nil_r.
    + intros item state t.
      rewrite indexForSearch_indexer, elem_of_createIndexEntry. split.
      * intros [Ht|(p & [= <-] & Ht)].
        -- exists ps. split; [|done]. apply elem_of_app. right. apply list_elem_of_here.
        -- apply Htok in Ht as (ps' & Hps' & Ht). exists ps'. split; [|done].
           apply elem_of_app. by left.
      * intros (ps' & [Hps'|Hps']%elem_of_app & Ht).
        -- right. eexists. split; [done|]. apply Htok. by exists ps'.
        -- apply list_elem_of_singleton in Hps' as ->. by left.
  - subst decls. split; [simpl; by rewrite app_nil_r|].
    intros item state t.
    rewrite indexForSearch_indexer, elem_of_createIndexEntry. split.
    + intros [Ht|(p & ? & _)]; [|done]. exists ps. split; [apply list_elem_of_here|done].
    + intros (ps' & ->%list_elem_of_singleton & Ht). by left.
Qed.

(** X20.  Successive [indexForSearch] calls on a class compose: the indexed
    properties are those of the calls, in order, and the tokens that the
    registered indexer computes for a state are the tokens of the text of
    each call's properties, every call contributing. *)
Theorem indexForSearch_accumulates
    (parseQuery : string → list (list string)) (decls : list (list string))
    (sp : SearchIndexProps) :
  declareAll parseQuery decls = Some sp →
  sprops sp = concat decls ∧
  ∀ item state t,
    t ∈ tokens (indexer sp item state) ↔
    ∃ ps, ps ∈ decls ∧ t ∈ concat (parseQuery (indexText ps state)).
Proof.
  intros H. pose proof (declareAll_spec parseQuery decls) as Hspec.
  rewrite H in Hspec. by destruct Hspec as (_ & ? & ?).
Qed.

Lemma indexForSearch_accumulates_witness :
  ∃ sp, declareAll exParseQuery [["title"]; ["body"]] = Some sp ∧
        sprops sp = concat [["title"]; ["body"]] ∧
        ∀ item state t,
          t ∈ tokens (indexer sp item state) ↔
          ∃ ps, ps ∈ [["title"]; ["body"]] ∧
                t ∈ concat (exParseQuery (indexText ps state)).
Proof.
  eexists. split; [reflexivity|].
  apply (indexForSearch_accumulates exParseQuery [["title"]; ["body"]]).
  reflexivity.
Defined.

(** X21.  With several [indexForSearch] declarations, an update of any
    indexed property indexes every declaration again: the upserted tokens are
    the tokens of the text of each declaration's properties, taken from the
    candidate state and, for the properties it lacks, from the persisted
    state. *)
Theorem updateInTxn_reindexes_every_declaration
    (parseQuery : string → list (list string)) (decls : list (list string))
    (item : SearchItem) (newState : gmap string value) :
  sitem_searchIndexProps item = declareAll parseQuery decls →
  (∃ ps e, ps ∈ decls ∧ e ∈ ps ∧ sitem_didUpdate item e = true) →
  ∃ entry, updateInTxn item newState = Some (_id item, entry) ∧
    ∀ t, t ∈ tokens entry ↔
         ∃ ps, ps ∈ decls ∧
               t ∈ concat (parseQuery
                   (String.concat " "
                      (map (λ e, String_ (orEmpty (mergedValue newState
                                                     (sitem_read item) e))) ps))).
Proof.
  intros Hreg (ps0 & e0 & Hps0 & He0 & Hupd).
  pose proof (declareAll_spec parseQuery decls) as Hspec.
  destruct (declareAll parseQuery decls) as [sp|] eqn:Hsp;
    [|subst decls; by apply elem_of_nil in Hps0].
  destruct Hspec as (_ & Hprops & Htok).
  assert (existsb (sitem_didUpdate item) (sprops sp) = true) as Hex.
  { apply existsb_exists. exists e0. split; [|done]. apply list_elem_of_In.
    rewrite Hprops. apply elem_of_concat. by exists ps0. }
  eexists. split; [unfold updateInTxn; by rewrite Hreg, Hex|].
  intros t. rewrite Htok. split; intros (ps & Hps & Ht); exists ps; (split; [done|]).
  - revert Ht. unfold indexText. erewrite map_ext_in; [done|]. intros e He. simpl.
    rewrite getProp_fillFromPersisted; [done|].
    rewrite Hprops. apply elem_of_concat. exists ps. split; [|done].
    by apply list_elem_of_In.
  - revert Ht. unfold indexText. erewrite (map_ext_in _ _ ps); [done|]. intros e He. simpl.
    rewrite getProp_fillFromPersisted; [done|].
    rewrite Hprops. apply elem_of_concat. exists ps. split; [|done].
    by apply list_elem_of_In.
Qed.

Lemma updateInTxn_reindexes_every_declaration_witness :
  ∃ entry, updateInTxn exSearchItemTwo {["body" := Scalar (JStr "new")]}
             = Some (_id exSearchItemTwo, entry) ∧
    ∀ t, t ∈ tokens entry ↔
         ∃ ps, ps ∈ [["title"]; ["body"]] ∧
               t ∈ concat (exParseQuery
                   (String.concat " "
                      (map (λ e, String_ (orEmpty (mergedValue
                                                     {["body" := Scalar (JStr "new")]}
                                                     (sitem_read exSearchItemTwo) e)))
                           ps))).
Proof.
  apply (updateInTxn_reindexes_every_declaration exParseQuery [["title"]; ["body"]]
           exSearchItemTwo {["body" := Scalar (JStr "new")]}).
  - reflexivity.
  - exists ["body"], "body". split; [|split].
    + apply list_elem_of_further, list_elem_of_here.
    + apply list_elem_of_here.
    + reflexivity.
Defined.

Lemma occurs_replaceSlashes (s : string) : occurs "/" (replaceSlashes s) = false.
Proof.
  induction s as [|c s IH]; [done|]. cbn [occurs replaceSlashes]. rewrite IH, orb_false_r.
  destruct (Ascii.eqb c "/") eqn:Hc; [done|]. by rewrite Ascii.eqb_sym.
Qed.

Lemma replaceSlashes_id (s : string) : occurs "/" s = false → replaceSlashes s = s.
Proof.
  induction s as [|c s IH]; [done|]. cbn [occurs replaceSlashes].
  intros [Hc Hs]%orb_false_iff. rewrite (IH Hs).
  rewrite Ascii.eqb_sym in Hc. by rewrite Hc.
Qed.

Lemma get_replaceSlashes (s : string) (i : nat) :
  String.get i (replaceSlashes s) =
    match String.get i s with
    | Some c => Some (if Ascii.eqb c "/"%char then "^"%char else c)
    | None => None
    end.
Proof.
  revert i. induction s as [|c s IH]; intros [|i]; simpl; try done.
Qed.

(** X22.  The id of an index entry is the unique name of the item with every
    slash replaced by a caret: it has the length of the name, holds a caret
    wherever the name holds a slash and the character of the name everywhere
    else.  So it holds no slash, names without slash are their own id, the
    replacement is idempotent, and a name that holds a slash shares its id
    with another name, the one in which the slashes are already replaced. *)
Theorem index_id_replaces_slashes (item : SearchItem) :
  String.length (_id item) = String.length (sitem_uniqueName item) ∧
  (∀ i, String.get i (sitem_uniqueName item) = Some "/"%char →
        String.get i (_id item) = Some "^"%char) ∧
  (∀ i c, String.get i (sitem_uniqueName item) = Some c → c ≠ "/"%char →
          String.get i (_id item) = Some c) ∧
  occurs "/" (_id item) = false ∧
  (occurs "/" (sitem_uniqueName item) = false → _id item = sitem_uniqueName item) ∧
  replaceSlashes (_id item) = _id item ∧
  (occurs "/" (sitem_uniqueName item) = true →
   ∃ item', sitem_uniqueName item' ≠ sitem_uniqueName item ∧ _id item' = _id item).
Proof.
  unfold _id. split; [|split; [|split; [|split; [|split; [|split]]]]].
  - induction (sitem_uniqueName item) as [|c s IH]; [done|].
    cbn [replaceSlashes String.length]. by rewrite IH.
  - intros i Hget. rewrite get_replaceSlashes, Hget. done.
  - intros i c Hget Hne. rewrite get_replaceSlashes, Hget.
    by destruct (Ascii.eqb_spec c "/"%char).
  - apply occurs_replaceSlashes.
  - apply replaceSlashes_id.
  - apply replaceSlashes_id, occurs_replaceSlashes.
  - intros Hslash.
    exists (MkSearchItem (sitem_searchIndexProps item)
              (replaceSlashes (sitem_uniqueName item)) (sitem_read item)
              (sitem_didUpdate item)).
    simpl. split.
    + intros Heq. rewrite <- Heq, occurs_replaceSlashes in Hslash. done.
    + apply replaceSlashes_id, occurs_replaceSlashes.
Qed.

(** X23.  The entry that [updateInTxn] upserts and the entry that
    [deleteInTxn] deletes are the same: whenever an update upserts an entry,
    its id is the id of the item and a deletion of the item deletes that
    id. *)
Theorem update_and_delete_same_entry
    (item : SearchItem) (newState : gmap string value) (id : string)
    (entry : IndexEntry) :
  updateInTxn item newState = Some (id, entry) →
  id = _id item ∧ deleteInTxn item = Some id ∧ onSearchDeleteItem item = Some id.
Proof.
  unfold onSearchDeleteItem, updateInTxn, deleteInTxn.
  destruct (sitem_searchIndexProps item) as [sp|]; [|done].
  destruct (existsb _ _); [|done]. by intros [= <- _].
Qed.

Lemma update_and_delete_same_entry_witness :
  "items^a1" = _id exSearchItem ∧ deleteInTxn exSearchItem = Some "items^a1" ∧
  onSearchDeleteItem exSearchItem = Some "items^a1".
Proof.
  apply (update_and_delete_same_entry exSearchItem {["body" := Scalar (JStr "new")]}
           "items^a1"
           (indexer exSearchProps "items^a1"
              (fillFromPersisted {["body" := Scalar (JStr "new")]}
                 (sitem_read exSearchItem) (sprops exSearchProps)))).
  reflexivity.
Defined.
